(** * api-field-selector: the FieldSelector class of src/FieldSelector.ts

    A shallow embedding of the class and of the parts of ECMAScript it
    relies on (strings, insertion-ordered Sets, property reads and writes on
    the plain objects the class creates or is handed), followed by the
    properties of the specification that were checked against it.

    Conventions of the embedding.
    - A JS string is a [string]; a character stands for one code unit (the
      embedding keeps the code units below 256).
    - A JS [Set<string>] is the list of its elements in insertion order.
    - A thrown exception is the left injection of a sum; a normal
      completion is the right one.
    - Own values have their declared TypeScript types; an options field
      that a caller may leave out ([?] in types.ts, or [undefined] behind
      [as any]) is an [option].
    - A property read walks the prototype chain: on a plain object it finds
      what [Object.prototype] defines when the object has no own value. *)

From Stdlib Require Import NArith Ascii String.
From stdpp Require Import base option list sorting strings gmap.

Local Open Scope string_scope.
Local Open Scope list_scope.

(** ** Strings *)

Module JsString.

(** WhiteSpace and LineTerminator code units recognised by
    [String.prototype.trim]: TAB, LF, VT, FF, CR, SP, NBSP. *)
Definition is_white_space (c : ascii) : bool :=
  let n := nat_of_ascii c in
  bool_decide (n ∈ [9; 10; 11; 12; 13; 32; 160]).

Fixpoint trimStart (s : string) : string :=
  match s with
  | String c s' => if is_white_space c then trimStart s' else s
  | EmptyString => EmptyString
  end.

Fixpoint trimEnd (s : string) : string :=
  match s with
  | String c s' =>
      match trimEnd s' with
      | EmptyString => if is_white_space c then EmptyString else String c EmptyString
      | t => String c t
      end
  | EmptyString => EmptyString
  end.

(** [s.trim()] *)
Definition trim (s : string) : string := trimEnd (trimStart s).

(** [s.startsWith(p)] *)
Definition startsWith (p s : string) : bool := String.prefix p s.

(** [s.slice(1)] *)
Definition slice1 (s : string) : string :=
  match s with
  | String _ s' => s'
  | EmptyString => EmptyString
  end.

(** [s.split(sep)] for a non-empty separator: the string is scanned from
    the left; where [sep] occurs the current piece ends and the scan
    resumes after the occurrence ([skip] counts the code units of the
    occurrence still to pass). The head of the result is the piece being
    read. *)
Fixpoint split_scan (sep : string) (skip : nat) (s : string) : list string :=
  match s with
  | EmptyString => [EmptyString]
  | String c s' =>
      match skip with
      | S k => split_scan sep k s'
      | O =>
          if String.prefix sep s
          then EmptyString :: split_scan sep (String.length sep - 1) s'
          else match split_scan sep 0 s' with
               | piece :: pieces => String c piece :: pieces
               | [] => [String c EmptyString]
               end
      end
  end.

Definition split (sep s : string) : list string := split_scan sep 0 s.

(** [l.join(sep)] *)
Definition join (sep : string) (l : list string) : string := String.concat sep l.

End JsString.

(** ** Sets of strings *)

Module JsSet.

(** The elements in insertion order. *)
Abbreviation t := (list string) (only parsing).

Definition empty : t := [].

(** [s.has(x)] *)
Definition has (s : t) (x : string) : bool := bool_decide (x ∈ s).

(** [s.add(x)]: a new element goes last, a present one stays where it is. *)
Definition add (x : string) (s : t) : t := if has s x then s else s ++ [x].

(** [src.forEach((f) => dst.add(f))] *)
Definition add_all (src : list string) (dst : t) : t :=
  foldl (λ acc f, add f acc) dst src.

(** [new Set(l)] *)
Definition of_list (l : list string) : t := add_all l empty.

(** [s.size] *)
Definition size (s : t) : nat := length s.

(** [Array.from(s)] *)
Definition to_array (s : t) : list string := s.

End JsSet.

(** ** Exceptions *)

(** [Error message] is [new Error(message)], the only exception the class
    constructs itself (the specification calls it ConfigurationError);
    [TypeError] is the one the engine raises (a call of something that is
    not a function, a getter applied to the wrong kind of receiver, an
    assignment to a property that only has a getter). *)
Inductive exn : Type :=
  | Error (message : string)
  | TypeError.

(** ** Arrays of strings *)

Module JsArray.

(** [l.includes(x)] *)
Definition includes (l : list string) (x : string) : bool := bool_decide (x ∈ l).

(** [l.every(p)] *)
Definition every (p : string → bool) (l : list string) : bool := forallb p l.

End JsArray.

(** ** The object behind [this.fieldGroups]

    The constructor creates it as [{}]: an ordinary object whose prototype
    is [Object.prototype]. The class writes it with
    [this.fieldGroups[groupName] = new Set(fields)] and reads it with
    [this.fieldGroups[name]]; both walk the prototype chain.

    - An assignment to the key [__proto__] reaches the accessor of
      [Object.prototype] and makes the assigned Set the prototype of the
      object; no own property is created.
    - Once a Set is the prototype, the chain contains [Set.prototype],
      whose [size] is an accessor without a setter: assigning to [size]
      raises a TypeError (class bodies are strict code) and reading it
      raises one too (the receiver is not a Set).
    - Every other inherited property is a writable data property holding a
      function: an assignment creates an own property that shadows it, a
      read yields the function. *)

Module Groups.

Inductive prototype : Type :=
  | ObjectPrototype
  | SetInstance (s : list string).

Record t : Type := mk {
  own : gmap string (list string);
  proto : prototype
}.

(** [{}] *)
Definition empty : t := {| own := ∅; proto := ObjectPrototype |}.

(** Data properties of [Object.prototype] (ECMAScript 2015, with Annex B). *)
Definition object_prototype_methods : list string :=
  [ "constructor"; "hasOwnProperty"; "isPrototypeOf"; "propertyIsEnumerable";
    "toLocaleString"; "toString"; "valueOf";
    "__defineGetter__"; "__defineSetter__"; "__lookupGetter__"; "__lookupSetter__" ].

(** Data properties of [Set.prototype] with a string key (ECMAScript 2015). *)
Definition set_prototype_methods : list string :=
  [ "add"; "clear"; "constructor"; "delete"; "entries"; "forEach"; "has";
    "keys"; "values" ].

(** What a read of [this.fieldGroups[name]] can yield. *)
Inductive value : Type :=
  | Undefined
  | SetValue (s : list string)
  | OtherObject.  (* a function, or [Object.prototype] itself: truthy, no [forEach] *)

(** [o[name]] *)
Definition get (o : t) (name : string) : exn + value :=
  match own o !! name with
  | Some s => inr (SetValue s)
  | None =>
      if bool_decide (name = "__proto__") then
        match proto o with
        | ObjectPrototype => inr OtherObject
        | SetInstance s => inr (SetValue s)
        end
      else
        match proto o with
        | ObjectPrototype =>
            if bool_decide (name ∈ object_prototype_methods)
            then inr OtherObject else inr Undefined
        | SetInstance _ =>
            if bool_decide (name = "size") then inl TypeError
            else if bool_decide (name ∈ set_prototype_methods ++ object_prototype_methods)
            then inr OtherObject else inr Undefined
        end
  end.

(** [o[name] = s] *)
Definition set (o : t) (name : string) (s : list string) : exn + t :=
  match own o !! name with
  | Some _ => inr {| own := <[name := s]> (own o); proto := proto o |}
  | None =>
      if bool_decide (name = "__proto__") then
        inr {| own := own o; proto := SetInstance s |}
      else
        match proto o with
        | SetInstance _ =>
            if bool_decide (name = "size") then inl TypeError
            else inr {| own := <[name := s]> (own o); proto := proto o |}
        | ObjectPrototype =>
            inr {| own := <[name := s]> (own o); proto := proto o |}
        end
  end.

End Groups.

(** ** types.ts *)

(** [FieldSelectorOptions]. [fieldGroups] is given by the entries that
    [Object.entries] enumerates, in that order. *)
Module Options.
Record t : Type := mk {
  availableFields : option (list string);
  defaultFields : option (list string);
  fieldGroups : option (list (string * list string))
}.
End Options.

(** [FieldSelectorConfig] *)
Module Config.
Record t : Type := mk {
  queryParam : option string;
  headerName : option string;
  separator : option string
}.

(** The default argument [config = {}]. *)
Definition empty : t := {| queryParam := None; headerName := None; separator := None |}.
End Config.

(** [RequestParams]: a query or header value is a string or an array of
    strings. The two mappings are plain objects, as the object literals
    the tests pass: a finite map of own values, with [Object.prototype]
    behind it. A read of a key finds the own value, or else what
    [Object.prototype] defines under that name, a function or, for
    [__proto__], [Object.prototype] itself. *)
Module Request.
Inductive param : Type :=
  | Single (s : string)
  | Multiple (l : list string).

(** What a read of a mapping finds, when it finds something. *)
Inductive value : Type :=
  | Param (p : param)
  | Inherited.  (* a function, or [Object.prototype]: truthy, no array, no string *)

Record t : Type := mk {
  query : option (gmap string param);
  headers : option (gmap string param)
}.

(** [{}] *)
Definition empty : t := {| query := None; headers := None |}.
End Request.

(** ** Objects as [filterObject] sees them

    An object is given by the entries [Object.entries] enumerates (own
    enumerable properties with a string key), in that order. For an
    ordinary object the order is: the array indices in ascending numeric
    order, then the other keys in the order of their creation.

    Property values are opaque data, as [JSON.parse] yields them: a
    primitive, [null], or an object with writable data properties only.
    An object of another kind (a frozen one, one with accessors) matters
    only as the value of an own key [__proto__] that is selected: the
    assignment would make it the prototype of the result, and a later
    assignment could raise. Such values are outside this data model.

    [filterObject] creates its result as [{}] and fills it with
    [result[key] = value]:
    - the key [__proto__] reaches the accessor of [Object.prototype]: no
      own property is created;
    - a key the object already owns keeps its place and takes the value;
    - a new key takes the place the enumeration order gives it. *)

Module JsObject.

(** Value of a string of decimal digits, read after [acc]. *)
Fixpoint digits_value (acc : N) (s : string) : option N :=
  match s with
  | EmptyString => Some acc
  | String c s' =>
      match Ascii.is_nat c with
      | Some d => digits_value (10 * acc + N.of_nat d)%N s'
      | None => None
      end
  end.

(** A key is an array index when it is the canonical decimal form of an
    integer between 0 and 2^32 - 2. *)
Definition array_index (key : string) : option N :=
  match key with
  | EmptyString => None
  | String "0" EmptyString => Some 0%N
  | String "0" _ => None
  | _ =>
      match digits_value 0 key with
      | Some n => if (n <? 2 ^ 32 - 1)%N then Some n else None
      | None => None
      end
  end.

Section Entries.
Context {V : Type}.

(** A new array index [n] goes after the indices that are not above it. *)
Fixpoint place_index (n : N) (key : string) (value : V) (o : list (string * V))
    : list (string * V) :=
  match o with
  | [] => [(key, value)]
  | (key', value') :: o' =>
      match array_index key' with
      | Some m =>
          if (m <=? n)%N then (key', value') :: place_index n key value o'
          else (key, value) :: o
      | None => (key, value) :: o
      end
  end.

(** The value of an own key is replaced where it stands. *)
Fixpoint update (key : string) (value : V) (o : list (string * V))
    : list (string * V) :=
  match o with
  | [] => []
  | (key', value') :: o' =>
      if decide (key' = key) then (key', value) :: o'
      else (key', value') :: update key value o'
  end.

(** [o[key] = value] on an object created as [{}]. *)
Definition set (o : list (string * V)) (key : string) (value : V)
    : list (string * V) :=
  if bool_decide (key = "__proto__") then o
  else if bool_decide (key ∈ o.*1) then update key value o
  else match array_index key with
       | Some n => place_index n key value o
       | None => o ++ [(key, value)]
       end.

End Entries.

End JsObject.

(** ** The class *)

Module FieldSelector.

Import JsString.

(** [Required<FieldSelectorConfig>] *)
Record config_t : Type := mk_config {
  queryParam : string;
  headerName : string;
  separator : string
}.

(** The private state of an instance. *)
Record t : Type := mk {
  availableFields : list string;
  defaultFields : list string;
  fieldGroups : Groups.t;
  config : config_t
}.

(** [v || d] for an optional string: [undefined] and the empty string
    are falsy. *)
Definition or_default (v : option string) (d : string) : string :=
  match v with
  | Some (String _ _ as s) => s
  | Some EmptyString | None => d
  end.

(** The body of [Object.entries(fieldGroups).forEach(...)]: the groups are
    validated and stored one after the other; the first exception ends
    the loop. *)
Fixpoint init_groups (availableFields : list string)
    (entries : list (string * list string)) (groups : Groups.t) : exn + Groups.t :=
  match entries with
  | [] => inr groups
  | (groupName, fields) :: rest =>
      if negb (JsArray.every (λ field, JsArray.includes availableFields field) fields)
      then inl (Error ("Group " +:+ groupName +:+ " contains invalid fields: "
                         +:+ join ", " fields))
      else match Groups.set groups groupName (JsSet.of_list fields) with
           | inl e => inl e
           | inr groups' => init_groups availableFields rest groups'
           end
  end.

(** [new FieldSelector(options, config)] *)
Definition new (options : Options.t) (config : Config.t) : exn + t :=
  match Options.availableFields options with
  | None | Some [] => inl (Error "availableFields must be provided and non-empty")
  | Some availableFields =>
      match Options.defaultFields options with
      | None | Some [] => inl (Error "defaultFields must be provided and non-empty")
      | Some defaultFields =>
          if negb (JsArray.every (λ field, JsArray.includes availableFields field)
                     defaultFields)
          then inl (Error "Default fields has values not present in available fields")
          else
            let groups :=
              match Options.fieldGroups options with
              | Some entries => init_groups availableFields entries Groups.empty
              | None => inr Groups.empty
              end in
            match groups with
            | inl e => inl e
            | inr groups =>
                inr {| availableFields := JsSet.of_list availableFields;
                       defaultFields := JsSet.of_list defaultFields;
                       fieldGroups := groups;
                       config :=
                         {| queryParam := or_default (Config.queryParam config) "fields";
                            headerName := or_default (Config.headerName config) "x-fields";
                            separator := or_default (Config.separator config) "," |} |}
            end
      end
  end.

(** [request.query?.[key]], and the same for the headers; [None] is
    [undefined]. The read walks the prototype chain of the mapping. *)
Definition read (m : option (gmap string Request.param)) (key : string)
    : option Request.value :=
  match m with
  | Some m =>
      match m !! key with
      | Some p => Some (Request.Param p)
      | None =>
          if bool_decide (key ∈ "__proto__" :: Groups.object_prototype_methods)
          then Some Request.Inherited
          else None
      end
  | None => None
  end.

(** Truthiness of what was read: [undefined] and the empty string are
    falsy; a non-empty string, every array (also the empty one) and every
    inherited value are truthy. *)
Definition truthy (v : option Request.value) : bool :=
  match v with
  | None => false
  | Some (Request.Param (Request.Single EmptyString)) => false
  | Some (Request.Param (Request.Single _)) => true
  | Some (Request.Param (Request.Multiple _)) => true
  | Some Request.Inherited => true
  end.

(** What [extractFieldsFromRequest] hands on: a string, as its type says,
    or the inherited value a read found. *)
Inductive input : Type :=
  | Str (s : string)
  | NotAString.

(** [Array.isArray(v) ? v[0] : v]; [None] is [undefined]. *)
Definition first_value (v : option Request.value) : option input :=
  match v with
  | None => None
  | Some (Request.Param (Request.Single s)) => Some (Str s)
  | Some (Request.Param (Request.Multiple l)) => Str <$> head l
  | Some Request.Inherited => Some NotAString
  end.

(** [extractFieldsFromRequest]; [None] is [null] or [undefined]. *)
Definition extractFieldsFromRequest (self : t) (request : Request.t) : option input :=
  let queryFields := read (Request.query request) (queryParam (config self)) in
  if truthy queryFields then first_value queryFields
  else
    let headerFields := read (Request.headers request) (headerName (config self)) in
    if truthy headerFields then first_value headerFields
    else None.

(** The [for] loop of [parseFieldsInput] over the trimmed pieces. *)
Fixpoint parse_loop (self : t) (requestedFields : list string)
    (selectedFields : list string) : exn + list string :=
  match requestedFields with
  | [] => inr selectedFields
  | field :: rest =>
      let individual :=
        if JsSet.has (availableFields self) field
        then parse_loop self rest (JsSet.add field selectedFields)
        else parse_loop self rest selectedFields in
      if startsWith "@" field then
        match Groups.get (fieldGroups self) (slice1 field) with
        | inl e => inl e
        | inr (Groups.SetValue groupFields) =>
            parse_loop self rest (JsSet.add_all groupFields selectedFields)
        | inr Groups.OtherObject => inl TypeError  (* [groupFields.forEach] is not a function *)
        | inr Groups.Undefined => individual
        end
      else individual
  end.

(** [parseFieldsInput] *)
Definition parseFieldsInput (self : t) (input : string) : exn + list string :=
  parse_loop self (map trim (split (separator (config self)) input)) JsSet.empty.

(** [getSelectedFields] *)
Definition getSelectedFields (self : t) (request : Request.t) : exn + list string :=
  match extractFieldsFromRequest self request with
  | None | Some (Str EmptyString) => inr (defaultFields self)
  | Some NotAString => inl TypeError  (* in [parseFieldsInput]: [input.split] is not a function *)
  | Some (Str fieldsInput) =>
      match parseFieldsInput self fieldsInput with
      | inl e => inl e
      | inr selectedFields =>
          if decide (JsSet.size selectedFields = 0) then inr (defaultFields self)
          else inr selectedFields
      end
  end.

(** The [for] loop of [filterObject] over [Object.entries(obj)]. *)
Definition filter_loop {V : Type} (selectedFields : list string)
    (entries : list (string * V)) (result : list (string * V)) : list (string * V) :=
  foldl (λ result '(key, value),
           if JsSet.has selectedFields key then JsObject.set result key value
           else result)
        result entries.

(** [filterObject] *)
Definition filterObject {V : Type} (self : t) (obj : list (string * V))
    (selectedFields : list string) : list (string * V) :=
  filter_loop selectedFields obj [].

(** [getAvailableFields] *)
Definition getAvailableFields (self : t) : list string :=
  JsSet.to_array (availableFields self).

(** [getDefaultFields] *)
Definition getDefaultFields (self : t) : list string :=
  JsSet.to_array (defaultFields self).

End FieldSelector.

(** * Auxiliary definitions *)

(** The list without the repetitions: every element stays at the place of
    its first occurrence. *)
Fixpoint first_occurrences (l : list string) : list string :=
  match l with
  | [] => []
  | x :: l' => x :: filter (λ y, y ≠ x) (first_occurrences l')
  end.

(** Every Set reachable from the groups object holds available fields. *)
Definition groups_within (available : list string) (groups : Groups.t) : Prop :=
  (∀ name s, Groups.own groups !! name = Some s → s ⊆ available) ∧
  (∀ s, Groups.proto groups = Groups.SetInstance s → s ⊆ available).

(** The invariant of a constructed selector. *)
Record invariant (self : FieldSelector.t) : Prop := {
  inv_default_nonempty : FieldSelector.defaultFields self ≠ [];
  inv_default_available :
    FieldSelector.defaultFields self ⊆ FieldSelector.availableFields self;
  inv_groups :
    groups_within (FieldSelector.availableFields self) (FieldSelector.fieldGroups self)
}.

(** The order in which an ordinary object enumerates its keys: array
    indices first, in ascending numeric order, then the other keys. *)
Definition key_le (key1 key2 : string) : Prop :=
  match JsObject.array_index key1, JsObject.array_index key2 with
  | Some a, Some b => (a ≤ b)%N
  | Some _, None => True
  | None, Some _ => False
  | None, None => True
  end.

Definition enumeration_order (keys : list string) : Prop := StronglySorted key_le keys.

(** The entries of an ordinary object: distinct keys, in enumeration order. *)
Definition ordinary {V : Type} (o : list (string * V)) : Prop :=
  NoDup o.*1 ∧ enumeration_order o.*1.

#[local] Instance key_le_dec : RelDecision key_le.
Proof.
  intros key1 key2. unfold key_le.
  destruct (JsObject.array_index key1), (JsObject.array_index key2); apply _.
Defined.

#[local] Instance key_le_trans : Transitive key_le.
Proof.
  intros k1 k2 k3. unfold key_le.
  destruct (JsObject.array_index k1), (JsObject.array_index k2),
    (JsObject.array_index k3); try done. apply N.le_trans.
Qed.

(** What [JsObject.set] keeps true of the keys of the result object. *)
Definition result_keys (selectedFields : list string) (keys : list string) : Prop :=
  NoDup keys ∧ enumeration_order keys
  ∧ Forall (λ k, k ∈ selectedFields ∧ k ≠ "__proto__") keys.

(** The entries that [filterObject] is to keep. *)
Definition retained {V : Type} (selectedFields : list string) (entry : string * V) : Prop :=
  entry.1 ∈ selectedFields ∧ entry.1 ≠ "__proto__".

#[local] Instance retained_dec {V : Type} selectedFields (entry : string * V) :
  Decision (retained selectedFields entry).
Proof. unfold retained. apply _. Defined.

(** What one trimmed token adds to the selection: the decision the body of
    the loop of [parseFieldsInput] takes, apart from the accumulation. *)
Definition token_fields (self : FieldSelector.t) (field : string) : exn + list string :=
  let individual :=
    if JsSet.has (FieldSelector.availableFields self) field then [field] else [] in
  if JsString.startsWith "@" field then
    match Groups.get (FieldSelector.fieldGroups self) (JsString.slice1 field) with
    | inl e => inl e
    | inr (Groups.SetValue groupFields) => inr groupFields
    | inr Groups.OtherObject => inl TypeError
    | inr Groups.Undefined => inr individual
    end
  else inr individual.

(** A string of white space only. *)
Definition blank (s : string) : Prop :=
  Forall (λ ch, JsString.is_white_space ch = true) (list_ascii_of_string s).

(** A token with white space put around it. *)
Definition padded (token token' : string) : Prop :=
  ∃ ws ws', blank ws ∧ blank ws' ∧ token' = ws +:+ token +:+ ws'.

(** ** Data of test/FieldSelector.test.ts *)

(** [defaultOptions] *)
Definition defaultOptions : Options.t :=
  {| Options.availableFields :=
       Some ["id"; "name"; "email"; "address"; "phone"; "createdAt"; "updatedAt"];
     Options.defaultFields := Some ["id"; "name"; "email"];
     Options.fieldGroups :=
       Some [ ("basic", ["id"; "name"]);
              ("contact", ["email"; "phone"]);
              ("timestamps", ["createdAt"; "updatedAt"]) ] |}.

(** Property values of the objects the tests filter. *)
Inductive json : Type :=
  | JNumber (n : N)
  | JString (s : string).

(** A request with one query parameter. *)
Definition query_request (key value : string) : Request.t :=
  {| Request.query := Some {[ key := Request.Single value ]}; Request.headers := None |}.

(** The instance that [new FieldSelector(defaultOptions)] builds. *)
Definition users_selector : FieldSelector.t :=
  {| FieldSelector.availableFields :=
       ["id"; "name"; "email"; "address"; "phone"; "createdAt"; "updatedAt"];
     FieldSelector.defaultFields := ["id"; "name"; "email"];
     FieldSelector.fieldGroups :=
       {| Groups.own :=
            <["timestamps" := ["createdAt"; "updatedAt"]]>
              (<["contact" := ["email"; "phone"]]>
                 (<["basic" := ["id"; "name"]]> ∅));
          Groups.proto := Groups.ObjectPrototype |};
     FieldSelector.config :=
       {| FieldSelector.queryParam := "fields";
          FieldSelector.headerName := "x-fields";
          FieldSelector.separator := "," |} |}.


(** Closes a decidable goal about concrete data by evaluation. *)
Ltac decide_now :=
  match goal with |- ?P => apply (bool_decide_unpack P); vm_compute; exact I end.

(** * Properties *)

(** ** The cases of the test suite *)

Example new_defaultOptions : FieldSelector.new defaultOptions Config.empty = inr users_selector.
Proof. vm_compute. reflexivity. Qed.

Example split_cases :
  JsString.split "," " id , name , phone " = [" id "; " name "; " phone "]
  ∧ JsString.split "|" "id|name" = ["id"; "name"]
  ∧ JsString.split "--" "a--b---c--" = ["a"; "b"; "-c"; ""]
  ∧ JsString.split "," "" = [""].
Proof. split_and!; reflexivity. Qed.

Example construction_cases :
  FieldSelector.new (Options.mk None (Some ["id"]) None) Config.empty
  = inl (Error "availableFields must be provided and non-empty")
  ∧ FieldSelector.new (Options.mk (Some []) (Some ["id"]) None) Config.empty
    = inl (Error "availableFields must be provided and non-empty")
  ∧ FieldSelector.new (Options.mk (Some ["id"; "name"]) None None) Config.empty
    = inl (Error "defaultFields must be provided and non-empty")
  ∧ FieldSelector.new (Options.mk (Some ["id"; "name"]) (Some []) None) Config.empty
    = inl (Error "defaultFields must be provided and non-empty")
  ∧ FieldSelector.new (Options.mk (Some ["id"; "name"]) (Some ["id"; "invalidField"]) None)
      Config.empty
    = inl (Error "Default fields has values not present in available fields")
  ∧ FieldSelector.new
      (Options.mk (Options.availableFields defaultOptions)
         (Options.defaultFields defaultOptions)
         (Some [("invalid", ["id"; "nonexistent"])]))
      Config.empty
    = inl (Error "Group invalid contains invalid fields: id, nonexistent").
Proof. split_and!; vm_compute; reflexivity. Qed.

Example selection_cases :
  FieldSelector.getSelectedFields users_selector Request.empty
  = inr ["id"; "name"; "email"]
  ∧ FieldSelector.getSelectedFields users_selector (query_request "fields" "id,name,phone")
    = inr ["id"; "name"; "phone"]
  ∧ FieldSelector.getSelectedFields users_selector
      (Request.mk (Some {[ "fields" := Request.Multiple ["id,name,phone"] ]}) None)
    = inr ["id"; "name"; "phone"]
  ∧ FieldSelector.getSelectedFields users_selector
      (Request.mk None (Some {[ "x-fields" := Request.Single "id,name,phone" ]}))
    = inr ["id"; "name"; "phone"]
  ∧ FieldSelector.getSelectedFields users_selector
      (query_request "fields" "id,invalidField,name")
    = inr ["id"; "name"]
  ∧ FieldSelector.getSelectedFields users_selector (query_request "fields" "@basic,phone")
    = inr ["id"; "name"; "phone"]
  ∧ FieldSelector.getSelectedFields users_selector (query_request "fields" "@basic,@contact")
    = inr ["id"; "name"; "email"; "phone"]
  ∧ FieldSelector.getSelectedFields users_selector (query_request "fields" "@invalid,id,name")
    = inr ["id"; "name"]
  ∧ FieldSelector.getSelectedFields users_selector (query_request "fields" "invalid1,invalid2")
    = inr ["id"; "name"; "email"]
  ∧ FieldSelector.getSelectedFields users_selector
      (query_request "fields" " id , name , phone ")
    = inr ["id"; "name"; "phone"].
Proof. split_and!; vm_compute; reflexivity. Qed.

Example custom_configuration_case :
  ∃ selector,
    FieldSelector.new defaultOptions (Config.mk (Some "select") (Some "x-select") (Some "|"))
    = inr selector
    ∧ FieldSelector.getSelectedFields selector (query_request "select" "id|name")
      = inr ["id"; "name"].
Proof. eexists. split; vm_compute; reflexivity. Qed.

(** A configured parameter name that the query object does not own but
    [Object.prototype] defines: the read finds the inherited function, and
    the selection raises ([input.split] is not a function), whatever the
    headers hold. *)
Example inherited_parameter_name_case :
  ∃ selector,
    FieldSelector.new defaultOptions (Config.mk (Some "constructor") None None)
    = inr selector
    ∧ FieldSelector.read (Some ∅) (FieldSelector.queryParam (FieldSelector.config selector))
      = Some Request.Inherited
    ∧ FieldSelector.getSelectedFields selector
        (Request.mk (Some ∅) (Some {[ "x-fields" := Request.Single "phone" ]}))
      = inl TypeError
    ∧ FieldSelector.getSelectedFields selector
        (Request.mk None (Some {[ "x-fields" := Request.Single "phone" ]}))
      = inr ["phone"].
Proof. eexists. split_and!; vm_compute; reflexivity. Qed.

Example filterObject_cases :
  FieldSelector.filterObject users_selector
    [ ("id", JNumber 1); ("name", JString "John"); ("email", JString "john@example.com");
      ("phone", JString "123456789"); ("address", JString "123 Main St") ]
    ["id"; "name"; "phone"]
  = [ ("id", JNumber 1); ("name", JString "John"); ("phone", JString "123456789") ]
  ∧ FieldSelector.filterObject users_selector [("id", JNumber 1); ("name", JString "John")] []
    = []
  ∧ FieldSelector.filterObject users_selector [("id", JNumber 1)] ["id"; "name"]
    = [("id", JNumber 1)].
Proof. split_and!; vm_compute; reflexivity. Qed.

(** ** Sets *)

Section set_facts.
Implicit Types (x y : string) (s src dst l : list string).

Lemma has_true s x : JsSet.has s x = true ↔ x ∈ s.
Proof. unfold JsSet.has. apply bool_decide_eq_true. Qed.

Lemma elem_of_add x y s : y ∈ JsSet.add x s ↔ y = x ∨ y ∈ s.
Proof.
  unfold JsSet.add, JsSet.has. case_bool_decide as Hx.
  - split; [by right | intros [-> | ?]; done].
  - rewrite elem_of_app, list_elem_of_singleton. tauto.
Qed.

Lemma elem_of_add_all src : ∀ dst y, y ∈ JsSet.add_all src dst ↔ y ∈ src ∨ y ∈ dst.
Proof.
  unfold JsSet.add_all. induction src as [| x src IH]; intros dst y; simpl.
  - rewrite elem_of_nil. tauto.
  - rewrite IH, elem_of_add, elem_of_cons. tauto.
Qed.

Lemma elem_of_of_list l y : y ∈ JsSet.of_list l ↔ y ∈ l.
Proof.
  unfold JsSet.of_list. rewrite elem_of_add_all. unfold JsSet.empty.
  rewrite elem_of_nil. tauto.
Qed.

Lemma add_NoDup x s : NoDup s → NoDup (JsSet.add x s).
Proof.
  intros Hs. unfold JsSet.add, JsSet.has. case_bool_decide as Hx; [done |].
  apply NoDup_app. split_and!; [done | | apply NoDup_singleton].
  intros y Hy ->%list_elem_of_singleton. done.
Qed.

Lemma add_all_NoDup src : ∀ dst, NoDup dst → NoDup (JsSet.add_all src dst).
Proof.
  unfold JsSet.add_all. induction src as [| x src IH]; intros dst Hdst; simpl; [done |].
  apply IH, add_NoDup, Hdst.
Qed.

Lemma of_list_NoDup l : NoDup (JsSet.of_list l).
Proof. apply add_all_NoDup. unfold JsSet.empty. constructor. Qed.

(** Adding the elements of a list keeps each of them at its first
    occurrence. *)
Lemma add_all_app src : ∀ dst, NoDup (dst ++ src) → JsSet.add_all src dst = dst ++ src.
Proof.
  unfold JsSet.add_all. induction src as [| x src IH]; intros dst Hnd; simpl.
  - by rewrite app_nil_r.
  - assert (x ∉ dst) as Hx.
    { apply NoDup_app in Hnd as (_ & Hd & _). intros Hin. apply (Hd x Hin). left. }
    unfold JsSet.add at 2, JsSet.has. rewrite bool_decide_eq_false_2 by done.
    rewrite IH; [by rewrite <- app_assoc |]. by rewrite <- app_assoc.
Qed.

Lemma of_list_id l : NoDup l → JsSet.of_list l = l.
Proof. intros Hl. unfold JsSet.of_list, JsSet.empty. by rewrite add_all_app. Qed.

Lemma add_all_nil_inv src dst : JsSet.add_all src dst = [] → src = [] ∧ dst = [].
Proof.
  intros Heq. split.
  - destruct src as [| x src]; [done |]. exfalso.
    assert (x ∈ JsSet.add_all (x :: src) dst) as Hx by (apply elem_of_add_all; left; left).
    rewrite Heq in Hx. by apply elem_of_nil in Hx.
  - destruct dst as [| x dst]; [done |]. exfalso.
    assert (x ∈ JsSet.add_all src (x :: dst)) as Hx by (apply elem_of_add_all; right; left).
    rewrite Heq in Hx. by apply elem_of_nil in Hx.
Qed.

End set_facts.

Section first_occurrences_facts.
Implicit Types (x y : string) (src dst l : list string).

Lemma filter_filter_notin dst x l :
  filter (λ y, y ∉ dst ++ [x]) l = filter (λ y, y ∉ dst) (filter (λ y, y ≠ x) l).
Proof.
  induction l as [| z l IH]; [done |].
  rewrite !filter_cons. destruct (decide (z ≠ x)) as [Hzx | Hzx].
  - rewrite filter_cons. destruct (decide (z ∉ dst)) as [Hz | Hz].
    + rewrite decide_True; [by rewrite IH |].
      rewrite elem_of_app, list_elem_of_singleton. tauto.
    + rewrite decide_False; [done |].
      rewrite elem_of_app, list_elem_of_singleton. tauto.
  - rewrite decide_False; [done |].
    rewrite elem_of_app, list_elem_of_singleton.
    destruct (decide (z = x)); [tauto | done].
Qed.

Lemma filter_notin_drop dst x l :
  x ∈ dst → filter (λ y, y ∉ dst) (filter (λ y, y ≠ x) l) = filter (λ y, y ∉ dst) l.
Proof.
  intros Hx. induction l as [| z l IH]; [done |].
  rewrite !filter_cons. destruct (decide (z ≠ x)) as [Hzx | Hzx].
  - rewrite filter_cons. by rewrite IH.
  - rewrite decide_False; [done |].
    destruct (decide (z = x)) as [-> | ?]; [tauto | done].
Qed.

Lemma add_all_first_occurrences src :
  ∀ dst, JsSet.add_all src dst = dst ++ filter (λ y, y ∉ dst) (first_occurrences src).
Proof.
  induction src as [| x src IH]; intros dst.
  - simpl. by rewrite app_nil_r.
  - change (JsSet.add_all (x :: src) dst) with (JsSet.add_all src (JsSet.add x dst)).
    rewrite IH. simpl first_occurrences. rewrite filter_cons.
    unfold JsSet.add, JsSet.has. case_bool_decide as Hx.
    + rewrite decide_False by tauto. by rewrite filter_notin_drop.
    + rewrite decide_True by done. rewrite <- app_assoc. simpl.
      by rewrite filter_filter_notin.
Qed.

Lemma of_list_first_occurrences l : JsSet.of_list l = first_occurrences l.
Proof.
  unfold JsSet.of_list, JsSet.empty. rewrite add_all_first_occurrences. simpl.
  induction (first_occurrences l) as [| z r IH]; [done |].
  rewrite filter_cons, decide_True by apply not_elem_of_nil. by rewrite IH.
Qed.

End first_occurrences_facts.

(** ** What the constructor establishes *)

Section constructor_facts.
Import FieldSelector.

Lemma every_includes available fields :
  JsArray.every (λ field, JsArray.includes available field) fields = true
  ↔ fields ⊆ available.
Proof.
  unfold JsArray.every, JsArray.includes. rewrite forallb_forall. split.
  - intros H x Hx. apply (bool_decide_eq_true (x ∈ available)), H.
    by apply list_elem_of_In.
  - intros H x Hx. apply bool_decide_eq_true, H. by apply list_elem_of_In.
Qed.

Lemma of_list_subseteq fields available :
  fields ⊆ available → JsSet.of_list fields ⊆ available.
Proof. intros H x. rewrite elem_of_of_list. apply H. Qed.

Lemma empty_within available : groups_within available Groups.empty.
Proof. split; [intros name s; simpl; by rewrite lookup_empty | done]. Qed.

Lemma set_within available groups name s groups' :
  groups_within available groups → s ⊆ available →
  Groups.set groups name s = inr groups' →
  groups_within available groups'.
Proof.
  intros [Hown Hproto] Hs. unfold Groups.set.
  assert (groups_within available
            {| Groups.own := <[name := s]> (Groups.own groups);
               Groups.proto := Groups.proto groups |}) as Hins.
  { split; simpl; [| done]. intros k s'. rewrite lookup_insert.
    case_decide; [by intros [= <-] | apply Hown]. }
  destruct (Groups.own groups !! name); [by intros [= <-] |].
  case_bool_decide.
  { intros [= <-]. split; simpl; [done | by intros ? [= <-]]. }
  destruct (Groups.proto groups); [by intros [= <-] |].
  case_bool_decide; [done | by intros [= <-]].
Qed.

Lemma init_groups_within available entries :
  ∀ groups groups',
    groups_within available groups →
    init_groups available entries groups = inr groups' →
    groups_within available groups'.
Proof.
  induction entries as [| [groupName fields] rest IH]; intros groups groups' Hin; simpl.
  - by intros [= <-].
  - destruct (JsArray.every _ fields) eqn:Hevery; simpl; [| done].
    apply every_includes in Hevery.
    destruct (Groups.set groups groupName (JsSet.of_list fields)) as [| g1] eqn:Hset;
      [done |].
    apply IH. eapply set_within; [done | | done]. by apply of_list_subseteq.
Qed.

Lemma get_within available groups name s :
  groups_within available groups →
  Groups.get groups name = inr (Groups.SetValue s) → s ⊆ available.
Proof.
  intros [Hown Hproto]. unfold Groups.get.
  destruct (Groups.own groups !! name) as [s' |] eqn:Hlook.
  { intros [= <-]. by eapply Hown. }
  case_bool_decide.
  { destruct (Groups.proto groups) as [| s'] eqn:Hp; [done |].
    intros [= <-]. by apply Hproto. }
  destruct (Groups.proto groups); repeat case_bool_decide; done.
Qed.

(** A successful construction, read backwards. *)
Lemma new_inr options cfg self :
  new options cfg = inr self →
  ∃ available defaults,
    Options.availableFields options = Some available ∧
    Options.defaultFields options = Some defaults ∧
    available ≠ [] ∧ defaults ≠ [] ∧ defaults ⊆ available ∧
    availableFields self = JsSet.of_list available ∧
    defaultFields self = JsSet.of_list defaults ∧
    groups_within available (fieldGroups self).
Proof.
  unfold new.
  destruct (Options.availableFields options) as [[| a available] |]; [done | | done].
  destruct (Options.defaultFields options) as [[| d defaults] |]; [done | | done].
  destruct (JsArray.every _ (d :: defaults)) eqn:Hevery; simpl; [| done].
  apply every_includes in Hevery.
  destruct (match Options.fieldGroups options with
            | Some entries => init_groups (a :: available) entries Groups.empty
            | None => inr Groups.empty
            end) as [| groups] eqn:Hgroups; [done |].
  intros [= <-]. exists (a :: available), (d :: defaults). simpl.
  split_and!; try done.
  destruct (Options.fieldGroups options) as [entries |].
  - eapply init_groups_within; [apply empty_within | done].
  - injection Hgroups as <-. apply empty_within.
Qed.

Lemma new_invariant options cfg self : new options cfg = inr self → invariant self.
Proof.
  intros (available & defaults & _ & _ & _ & Hd & Hsub & Ha & Hdef & [Hown Hproto])%new_inr.
  split; rewrite ?Ha, ?Hdef.
  - intros Heq. apply add_all_nil_inv in Heq as [-> _]. done.
  - intros x. rewrite !elem_of_of_list. apply Hsub.
  - split.
    + intros name s Hs x Hx. rewrite elem_of_of_list. by apply (Hown name s).
    + intros s Hs x Hx. rewrite elem_of_of_list. by apply (Hproto s).
Qed.

End constructor_facts.

(** ** Selection *)

Section selection_facts.
Import FieldSelector.

Lemma parse_loop_within self requestedFields :
  invariant self →
  ∀ selectedFields result,
    selectedFields ⊆ availableFields self →
    parse_loop self requestedFields selectedFields = inr result →
    result ⊆ availableFields self.
Proof.
  intros Hinv. induction requestedFields as [| field rest IH];
    intros selectedFields result Hsel; simpl.
  - by intros [= <-].
  - assert (∀ r,
      (if JsSet.has (availableFields self) field
       then parse_loop self rest (JsSet.add field selectedFields)
       else parse_loop self rest selectedFields) = inr r →
      r ⊆ availableFields self) as Hindividual.
    { intros r. destruct (JsSet.has _ field) eqn:Hhas; [| by apply IH].
      apply IH. intros x [-> | Hx]%elem_of_add; [by apply has_true | by apply Hsel]. }
    destruct (JsString.startsWith "@" field); [| apply Hindividual].
    destruct (Groups.get (fieldGroups self) (JsString.slice1 field))
      as [| [| groupFields |]] eqn:Hget; [done | apply Hindividual | | done].
    apply IH. intros x [Hx | Hx]%elem_of_add_all; [| by apply Hsel].
    eapply get_within; [apply (inv_groups _ Hinv) | apply Hget | done].
Qed.

Lemma selected_within self request selectedFields :
  invariant self →
  getSelectedFields self request = inr selectedFields →
  selectedFields ⊆ availableFields self ∧ selectedFields ≠ [].
Proof.
  intros Hinv. unfold getSelectedFields.
  pose proof (inv_default_nonempty _ Hinv) as Hne.
  pose proof (inv_default_available _ Hinv) as Hsub.
  destruct (extractFieldsFromRequest self request) as [[[| c input] |] |];
    [by intros [= <-] | | done | by intros [= <-]].
  destruct (parseFieldsInput self (String c input)) as [| parsed] eqn:Hparse; [done |].
  case_decide as Hsize; [by intros [= <-] |]. intros [= <-]. split.
  - eapply parse_loop_within; [done | | apply Hparse]. by intros x Hx%elem_of_nil.
  - intros ->. by apply Hsize.
Qed.

End selection_facts.

(** C1. For every constructed selector and every request, the set that
    [getSelectedFields] returns contains only members of the
    available-fields set, or it is the default-fields set. *)
Theorem selected_fields_available options cfg self request selectedFields :
  FieldSelector.new options cfg = inr self →
  FieldSelector.getSelectedFields self request = inr selectedFields →
  (∀ field, field ∈ selectedFields → field ∈ FieldSelector.availableFields self)
  ∨ selectedFields = FieldSelector.defaultFields self.
Proof.
  intros Hnew%new_invariant Hsel. left.
  by apply (selected_within self request selectedFields Hnew) in Hsel as [Hsub _].
Qed.

Lemma selected_fields_available_witness :
  FieldSelector.new defaultOptions Config.empty = inr users_selector
  ∧ FieldSelector.getSelectedFields users_selector (query_request "fields" "@basic,phone, zip")
    = inr ["id"; "name"; "phone"]
  ∧ ((∀ field, field ∈ ["id"; "name"; "phone"] →
        field ∈ FieldSelector.availableFields users_selector)
     ∨ ["id"; "name"; "phone"] = FieldSelector.defaultFields users_selector).
Proof.
  split; [vm_compute; reflexivity |]. split; [vm_compute; reflexivity |].
  apply (selected_fields_available defaultOptions Config.empty users_selector
           (query_request "fields" "@basic,phone, zip")); vm_compute; reflexivity.
Defined.

(** C9. For every constructed selector and every request, the set that
    [getSelectedFields] returns is not empty. *)
Theorem selected_fields_nonempty options cfg self request selectedFields :
  FieldSelector.new options cfg = inr self →
  FieldSelector.getSelectedFields self request = inr selectedFields →
  selectedFields ≠ [].
Proof.
  intros Hnew%new_invariant Hsel.
  by apply (selected_within self request selectedFields Hnew) in Hsel as [_ Hne].
Qed.

Lemma selected_fields_nonempty_witness :
  FieldSelector.new defaultOptions Config.empty = inr users_selector
  ∧ FieldSelector.getSelectedFields users_selector (query_request "fields" "zip,,@none")
    = inr ["id"; "name"; "email"]
  ∧ ["id"; "name"; "email"] ≠ [].
Proof.
  split; [vm_compute; reflexivity |]. split; [vm_compute; reflexivity |].
  apply (selected_fields_nonempty defaultOptions Config.empty users_selector
           (query_request "fields" "zip,,@none")); vm_compute; reflexivity.
Defined.

(** ** Extraction of the raw selection string *)



(** C10. A query value that is present but is an empty array yields no raw
    selection string, whatever the headers hold, and [getSelectedFields]
    returns the default-fields set. *)
Theorem empty_sequence_query self query headers :
  query !! FieldSelector.queryParam (FieldSelector.config self) = Some (Request.Multiple []) →
  FieldSelector.extractFieldsFromRequest self (Request.mk (Some query) headers) = None
  ∧ FieldSelector.getSelectedFields self (Request.mk (Some query) headers)
    = inr (FieldSelector.defaultFields self).
Proof.
  intros Hq.
  unfold FieldSelector.getSelectedFields, FieldSelector.extractFieldsFromRequest. simpl.
  by rewrite Hq.
Qed.

Lemma empty_sequence_query_witness :
  ({[ "fields" := Request.Multiple [] ]} : gmap string Request.param)
    !! FieldSelector.queryParam (FieldSelector.config users_selector)
  = Some (Request.Multiple [])
  ∧ FieldSelector.extractFieldsFromRequest users_selector
      (Request.mk (Some {[ "fields" := Request.Multiple [] ]})
                  (Some {[ "x-fields" := Request.Single "phone" ]})) = None
  ∧ FieldSelector.getSelectedFields users_selector
      (Request.mk (Some {[ "fields" := Request.Multiple [] ]})
                  (Some {[ "x-fields" := Request.Single "phone" ]}))
    = inr (FieldSelector.defaultFields users_selector).
Proof.
  split; [vm_compute; reflexivity |].
  apply (empty_sequence_query users_selector {[ "fields" := Request.Multiple [] ]}
           (Some {[ "x-fields" := Request.Single "phone" ]})).
  vm_compute. reflexivity.
Defined.

(** ** Accessors *)

(** C4, as stated, fails: a list with a repeated field is accepted at
    construction, and [getAvailableFields] returns it without the
    repetition. *)
Lemma repeated_field_not_returned :
  ∃ self,
    FieldSelector.new
      {| Options.availableFields := Some ["id"; "name"; "id"];
         Options.defaultFields := Some ["name"; "name"];
         Options.fieldGroups := None |} Config.empty = inr self
    ∧ FieldSelector.getAvailableFields self = ["id"; "name"]
    ∧ FieldSelector.getAvailableFields self ≠ ["id"; "name"; "id"]
    ∧ FieldSelector.getDefaultFields self = ["name"]
    ∧ FieldSelector.getDefaultFields self ≠ ["name"; "name"].
Proof.
  eexists. split; [vm_compute; reflexivity |].
  split_and!; vm_compute; first [reflexivity | discriminate].
Qed.

(** C4, amended. [getAvailableFields] and [getDefaultFields] return the
    supplied lists without their repetitions, every field at the place of
    its first occurrence; a list without repetitions is returned element
    for element in its original order. *)
Theorem accessors_return_first_occurrences options cfg self available defaults :
  FieldSelector.new options cfg = inr self →
  Options.availableFields options = Some available →
  Options.defaultFields options = Some defaults →
  FieldSelector.getAvailableFields self = first_occurrences available
  ∧ FieldSelector.getDefaultFields self = first_occurrences defaults
  ∧ (NoDup available → FieldSelector.getAvailableFields self = available)
  ∧ (NoDup defaults → FieldSelector.getDefaultFields self = defaults).
Proof.
  intros (available' & defaults' & Ha & Hd & _ & _ & _ & Hav & Hdef & _)%new_inr Ha' Hd'.
  rewrite Ha in Ha'. rewrite Hd in Hd'. injection Ha' as ->. injection Hd' as ->.
  unfold FieldSelector.getAvailableFields, FieldSelector.getDefaultFields, JsSet.to_array.
  rewrite Hav, Hdef. split_and!.
  - apply of_list_first_occurrences.
  - apply of_list_first_occurrences.
  - apply of_list_id.
  - apply of_list_id.
Qed.

Lemma accessors_return_first_occurrences_witness :
  FieldSelector.new defaultOptions Config.empty = inr users_selector
  ∧ FieldSelector.getAvailableFields users_selector
    = first_occurrences ["id"; "name"; "email"; "address"; "phone"; "createdAt"; "updatedAt"]
  ∧ FieldSelector.getDefaultFields users_selector = first_occurrences ["id"; "name"; "email"]
  ∧ (NoDup ["id"; "name"; "email"; "address"; "phone"; "createdAt"; "updatedAt"] →
     FieldSelector.getAvailableFields users_selector
     = ["id"; "name"; "email"; "address"; "phone"; "createdAt"; "updatedAt"])
  ∧ (NoDup ["id"; "name"; "email"] →
     FieldSelector.getDefaultFields users_selector = ["id"; "name"; "email"]).
Proof.
  split; [vm_compute; reflexivity |].
  apply (accessors_return_first_occurrences defaultOptions Config.empty users_selector);
    vm_compute; reflexivity.
Defined.

(** ** Construction errors *)

(** C5, as stated, fails: the message of the error is not the one the
    claim quotes. *)
Lemma default_fields_message_differs :
  FieldSelector.new
    {| Options.availableFields := Some ["id"; "name"];
       Options.defaultFields := Some ["id"; "invalidField"];
       Options.fieldGroups := None |} Config.empty
  = inl (Error "Default fields has values not present in available fields")
  ∧ FieldSelector.new
      {| Options.availableFields := Some ["id"; "name"];
         Options.defaultFields := Some ["id"; "invalidField"];
         Options.fieldGroups := None |} Config.empty
    ≠ inl (Error "default fields contain values not present in available fields").
Proof. split; vm_compute; [reflexivity | discriminate]. Qed.

(** C5, amended. When some default field is not an available field,
    construction fails with an [Error]: the one of the non-emptiness check
    when [availableFields] is missing or empty, and otherwise the one whose
    message is "Default fields has values not present in available fields",
    whatever the groups are. *)
Theorem default_fields_checked_before_groups options cfg defaults field :
  Options.defaultFields options = Some defaults →
  field ∈ defaults →
  field ∉ default [] (Options.availableFields options) →
  FieldSelector.new options cfg
  = inl (Error (match Options.availableFields options with
                | None | Some [] => "availableFields must be provided and non-empty"
                | Some _ => "Default fields has values not present in available fields"
                end)).
Proof.
  intros Hd Hin Hnot. unfold FieldSelector.new. rewrite Hd.
  destruct (Options.availableFields options) as [[| a available] |]; [done | | done].
  destruct defaults as [| d defaults]; [by apply elem_of_nil in Hin |].
  destruct (JsArray.every _ (d :: defaults)) eqn:Hevery; [| done].
  apply every_includes in Hevery. exfalso. apply Hnot. simpl. by apply Hevery.
Qed.

Lemma default_fields_checked_before_groups_witness :
  Options.defaultFields
    {| Options.availableFields := Some ["id"; "name"];
       Options.defaultFields := Some ["id"; "zip"];
       Options.fieldGroups := Some [("broken", ["nowhere"])] |} = Some ["id"; "zip"]
  ∧ ("zip" ∈ ["id"; "zip"])
  ∧ ("zip" ∉ ["id"; "name"])
  ∧ FieldSelector.new
      {| Options.availableFields := Some ["id"; "name"];
         Options.defaultFields := Some ["id"; "zip"];
         Options.fieldGroups := Some [("broken", ["nowhere"])] |} Config.empty
    = inl (Error "Default fields has values not present in available fields").
Proof.
  split; [reflexivity |]. split; [decide_now |]. split; [decide_now |].
  apply (default_fields_checked_before_groups
           {| Options.availableFields := Some ["id"; "name"];
              Options.defaultFields := Some ["id"; "zip"];
              Options.fieldGroups := Some [("broken", ["nowhere"])] |}
           Config.empty ["id"; "zip"] "zip"); [reflexivity | decide_now | decide_now].
Defined.

(** ** Names inherited by the groups object *)

Section inherited_names.
Import FieldSelector.

(** A token [@name] whose name the groups object inherits as a function
    ends the parse with a TypeError. *)
Lemma inherited_method_raises self name rest selectedFields :
  Groups.own (fieldGroups self) !! name = None →
  name ∈ Groups.object_prototype_methods →
  parse_loop self (String "@" name :: rest) selectedFields = inl TypeError.
Proof.
  intros Hown Hname. simpl. unfold Groups.get. rewrite Hown.
  assert (name ≠ "__proto__") as Hne.
  { intros ->. revert Hname. apply (bool_decide_unpack (_ ∉ _)). vm_compute. exact I. }
  rewrite bool_decide_eq_false_2 by done.
  replace (JsString.startsWith "" name) with true by (by destruct name).
  destruct (Groups.proto (fieldGroups self)).
  - by rewrite bool_decide_eq_true_2.
  - case_bool_decide; [done |]. rewrite bool_decide_eq_true_2; [done |].
    apply elem_of_app. by right.
Qed.

(** Tokens that name no inherited property never raise. *)
Lemma parse_loop_returns self requestedFields :
  (∀ field, field ∈ requestedFields → JsString.startsWith "@" field = true →
     Groups.get (fieldGroups self) (JsString.slice1 field) = inr Groups.Undefined
     ∨ ∃ s, Groups.get (fieldGroups self) (JsString.slice1 field) = inr (Groups.SetValue s)) →
  ∀ selectedFields, ∃ result, parse_loop self requestedFields selectedFields = inr result.
Proof.
  induction requestedFields as [| field rest IH]; intros Hquiet selectedFields; simpl.
  - by eexists.
  - assert (∀ sel, ∃ result, parse_loop self rest sel = inr result) as Hrest.
    { apply IH. intros f Hf. apply Hquiet. by right. }
    destruct (JsString.startsWith "@" field) eqn:Hat.
    + destruct (Hquiet field) as [-> | [s ->]]; [by left | done | | apply Hrest].
      destruct (JsSet.has _ field); apply Hrest.
    + destruct (JsSet.has _ field); apply Hrest.
Qed.

(** While the prototype is [Object.prototype], storing a group under a name
    other than [__proto__] succeeds and keeps the prototype. *)
Lemma set_ordinary groups name s :
  Groups.proto groups = Groups.ObjectPrototype → name ≠ "__proto__" →
  ∃ groups', Groups.set groups name s = inr groups'
             ∧ Groups.proto groups' = Groups.ObjectPrototype.
Proof.
  intros Hproto Hname. unfold Groups.set.
  destruct (Groups.own groups !! name); [by eexists |].
  rewrite bool_decide_eq_false_2 by done. rewrite Hproto. by eexists.
Qed.

(** The first group with a field that is not available is the one
    reported, with all its fields, as long as no group before it is named
    [__proto__]. *)
Lemma init_groups_first_invalid available before groupName fields after :
  Forall (λ entry, entry.2 ⊆ available ∧ entry.1 ≠ "__proto__") before →
  ¬ fields ⊆ available →
  ∀ groups,
    Groups.proto groups = Groups.ObjectPrototype →
    init_groups available (before ++ (groupName, fields) :: after) groups
    = inl (Error ("Group " +:+ groupName +:+ " contains invalid fields: "
                    +:+ JsString.join ", " fields)).
Proof.
  intros Hbefore Hfields. induction Hbefore as [| [name fs] before [Hfs Hname] _ IH];
    intros groups Hproto; simpl.
  - destruct (JsArray.every _ fields) eqn:Hevery; [| done].
    by apply every_includes in Hevery.
  - simpl in Hfs, Hname. apply every_includes in Hfs. rewrite Hfs. simpl.
    destruct (set_ordinary groups name (JsSet.of_list fs) Hproto Hname) as (g' & -> & Hg').
    by apply IH.
Qed.

Lemma new_first_invalid_group cfg a available d defaults before groupName fields after :
  (d :: defaults) ⊆ (a :: available) →
  Forall (λ entry, entry.2 ⊆ a :: available ∧ entry.1 ≠ "__proto__") before →
  ¬ fields ⊆ a :: available →
  new {| Options.availableFields := Some (a :: available);
         Options.defaultFields := Some (d :: defaults);
         Options.fieldGroups := Some (before ++ (groupName, fields) :: after) |} cfg
  = inl (Error ("Group " +:+ groupName +:+ " contains invalid fields: "
                  +:+ JsString.join ", " fields)).
Proof.
  intros Hd Hbefore Hfields. unfold new.
  cbn [Options.availableFields Options.defaultFields Options.fieldGroups].
  apply every_includes in Hd. rewrite Hd. cbn [negb].
  by rewrite (init_groups_first_invalid _ before groupName fields after Hbefore Hfields).
Qed.

End inherited_names.

(** C2 fails on the code: a selection string that names a property the
    groups object inherits from [Object.prototype] makes [getSelectedFields]
    raise a TypeError instead of discarding the token. *)
Lemma inherited_group_token_raises :
  FieldSelector.new defaultOptions Config.empty = inr users_selector
  ∧ FieldSelector.getSelectedFields users_selector (query_request "fields" "@constructor")
    = inl TypeError
  ∧ FieldSelector.getSelectedFields users_selector (query_request "fields" "id, @toString")
    = inl TypeError.
Proof. split_and!; vm_compute; reflexivity. Qed.

(** C7 fails on the code: once a group named [__proto__] has made a Set the
    prototype of the groups object, storing a group named [size] raises a
    TypeError, and the invalid group after it is never reported. *)
Lemma group_named_size_raises :
  FieldSelector.new
    {| Options.availableFields := Some ["id"];
       Options.defaultFields := Some ["id"];
       Options.fieldGroups :=
         Some [("__proto__", ["id"]); ("size", ["id"]); ("bad", ["nope"])] |}
    Config.empty
  = inl TypeError.
Proof. vm_compute. reflexivity. Qed.

(** ** Objects *)

Section object_facts.
Context {V : Type}.
Implicit Types (o acc : list (string * V)) (key : string) (value : V).

Lemma update_keys key value o : (JsObject.update key value o).*1 = o.*1.
Proof.
  induction o as [| [key' value'] o IH]; [done |]. cbn [JsObject.update].
  case_decide; rewrite !fmap_cons; [done | by rewrite IH].
Qed.

Lemma place_index_keys_perm n key value o :
  (JsObject.place_index n key value o).*1 ≡ₚ key :: o.*1.
Proof.
  induction o as [| [key' value'] o IH]; [done |]. cbn [JsObject.place_index].
  destruct (JsObject.array_index key') as [m |]; [| done].
  destruct (m <=? n)%N; [| done]. rewrite !fmap_cons, IH. apply Permutation_swap.
Qed.

Lemma place_index_sorted n key value o :
  JsObject.array_index key = Some n →
  enumeration_order o.*1 →
  enumeration_order (JsObject.place_index n key value o).*1.
Proof.
  intros Hkey. unfold enumeration_order.
  induction o as [| [key' value'] o IH]; intros Hsorted; simpl.
  - repeat constructor.
  - apply StronglySorted_cons in Hsorted as [Hall Hsorted].
    assert (StronglySorted key_le ((key', value') :: o).*1) as Hwhole.
    { simpl. by apply StronglySorted_cons. }
    destruct (JsObject.array_index key') as [m |] eqn:Hkey'.
    + destruct (m <=? n)%N eqn:Hle.
      * simpl. apply StronglySorted_cons. split; [| by apply IH].
        rewrite place_index_keys_perm. constructor; [| done].
        unfold key_le. rewrite Hkey', Hkey. by apply N.leb_le.
      * simpl. apply StronglySorted_cons. split; [| done].
        assert (key_le key key') as Hfirst.
        { unfold key_le. rewrite Hkey', Hkey. apply N.leb_gt in Hle. lia. }
        constructor; [done |].
        eapply Forall_impl; [apply Hall |]. intros k Hk. by etrans.
    + simpl. apply StronglySorted_cons. split; [| done].
      assert (key_le key key') as Hfirst.
      { unfold key_le. by rewrite Hkey', Hkey. }
      constructor; [done |].
      eapply Forall_impl; [apply Hall |]. intros k Hk. by etrans.
Qed.

(** A key that belongs after all the present ones is appended. *)
Lemma set_append acc key value :
  key ≠ "__proto__" → key ∉ acc.*1 → Forall (λ k, key_le k key) acc.*1 →
  JsObject.set acc key value = acc ++ [(key, value)].
Proof.
  intros Hproto Hnew Hall. unfold JsObject.set.
  rewrite bool_decide_eq_false_2 by done. rewrite bool_decide_eq_false_2 by done.
  destruct (JsObject.array_index key) as [n |] eqn:Hkey; [| done].
  clear Hnew. induction acc as [| [key' value'] acc IH]; [done |]. simpl in *.
  apply Forall_cons in Hall as [Hle Hall]. unfold key_le in Hle. rewrite Hkey in Hle.
  destruct (JsObject.array_index key') as [m |]; [| done].
  apply N.leb_le in Hle. rewrite Hle. by rewrite IH.
Qed.

Lemma set_result_keys selectedFields acc key value :
  key ∈ selectedFields →
  result_keys selectedFields acc.*1 →
  result_keys selectedFields (JsObject.set acc key value).*1.
Proof.
  intros Hin (Hnd & Hsorted & Hall). unfold JsObject.set.
  case_bool_decide as Hproto; [done |].
  case_bool_decide as Hown; [by rewrite update_keys |].
  destruct (JsObject.array_index key) as [n |] eqn:Hkey.
  - split_and!.
    + rewrite place_index_keys_perm. by constructor.
    + by apply place_index_sorted.
    + rewrite place_index_keys_perm. by constructor.
  - rewrite fmap_app. simpl. split_and!.
    + apply NoDup_app. split_and!; [done | | apply NoDup_singleton].
      by intros k Hk ->%list_elem_of_singleton.
    + apply StronglySorted_app. split_and!; [| done | repeat constructor].
      intros k1 k2 _ ->%list_elem_of_singleton. unfold key_le. rewrite Hkey.
      by destruct (JsObject.array_index k1).
    + apply Forall_app. split; [done |]. by repeat constructor.
Qed.

End object_facts.

(** ** [filterObject] *)

Section filterObject_facts.
Context {V : Type}.
Implicit Types (obj acc : list (string * V)) (selectedFields : list string).

Lemma filter_loop_cons selectedFields key value obj acc :
  FieldSelector.filter_loop selectedFields ((key, value) :: obj) acc
  = FieldSelector.filter_loop selectedFields obj
      (if JsSet.has selectedFields key then JsObject.set acc key value else acc).
Proof. done. Qed.

Lemma filter_loop_result_keys selectedFields obj :
  ∀ acc, result_keys selectedFields acc.*1 →
         result_keys selectedFields (FieldSelector.filter_loop selectedFields obj acc).*1.
Proof.
  induction obj as [| [key value] obj IH]; intros acc Hacc; [done |].
  rewrite filter_loop_cons. apply IH.
  destruct (JsSet.has selectedFields key) eqn:Hhas; [| done].
  apply set_result_keys; [by apply has_true | done].
Qed.

Lemma NoDup_drop_middle (before : list string) key after :
  NoDup (before ++ key :: after) → NoDup (before ++ after) ∧ key ∉ before.
Proof.
  rewrite !NoDup_app, NoDup_cons. intros (Hb & Hdisj & Hkey & Ha). split_and!; try done.
  - intros x Hx Hx'. apply (Hdisj x Hx). by right.
  - intros Hin. apply (Hdisj key Hin). by left.
Qed.

Lemma sorted_drop_middle (before : list string) key after :
  enumeration_order (before ++ key :: after) →
  enumeration_order (before ++ after) ∧ Forall (λ k, key_le k key) before.
Proof.
  unfold enumeration_order. rewrite !StronglySorted_app, StronglySorted_cons.
  intros (Hcross & Hb & Hall & Ha). split_and!; try done.
  - intros x1 x2 Hx1 Hx2. apply Hcross; [done | by right].
  - apply Forall_forall. intros x Hx. apply Hcross; [done | by left].
Qed.

(** On the entries of an ordinary object the loop appends the retained
    entries to the result, in their order. *)
Lemma filter_loop_ordinary selectedFields obj :
  ∀ acc, NoDup (acc ++ obj).*1 → enumeration_order (acc ++ obj).*1 →
         FieldSelector.filter_loop selectedFields obj acc
         = acc ++ filter (retained selectedFields) obj.
Proof.
  induction obj as [| [key value] obj IH]; intros acc Hnd Hsorted.
  - by rewrite filter_nil, app_nil_r.
  - rewrite filter_loop_cons, filter_cons.
    rewrite fmap_app, fmap_cons in Hnd, Hsorted. simpl in Hnd, Hsorted.
    apply NoDup_drop_middle in Hnd as Hnd'. destruct Hnd' as [Hnd' Hnew].
    apply sorted_drop_middle in Hsorted as Hsorted'. destruct Hsorted' as [Hsorted' Hle].
    destruct (decide (retained selectedFields (key, value))) as [[Hin Hproto] | Hout].
    + simpl in Hin, Hproto. apply has_true in Hin. rewrite Hin.
      rewrite set_append by done. rewrite IH.
      * by rewrite <- app_assoc.
      * rewrite <- app_assoc, fmap_app. exact Hnd.
      * rewrite <- app_assoc, fmap_app. exact Hsorted.
    + assert ((if JsSet.has selectedFields key then JsObject.set acc key value else acc)
              = acc) as ->.
      { destruct (JsSet.has selectedFields key) eqn:Hhas; [| done].
        apply has_true in Hhas. unfold JsObject.set.
        rewrite bool_decide_eq_true_2; [done |].
        destruct (decide (key = "__proto__")); [done |]. by destruct Hout. }
      apply IH; by rewrite fmap_app.
Qed.

(** For every ordinary object, [filterObject] returns the entries whose key
    is selected, with their values and in their order, except an entry
    whose key is [__proto__]. *)
Lemma filterObject_ordinary self obj selectedFields :
  ordinary obj →
  FieldSelector.filterObject self obj selectedFields
  = filter (retained selectedFields) obj.
Proof. intros [Hnd Hsorted]. unfold FieldSelector.filterObject. by rewrite filter_loop_ordinary. Qed.

(** The result of [filterObject] is an ordinary object whose keys are
    selected. *)
Lemma filterObject_result_keys self obj selectedFields :
  result_keys selectedFields (FieldSelector.filterObject self obj selectedFields).*1.
Proof.
  apply filter_loop_result_keys. split_and!; constructor.
Qed.

Lemma filterObject_empty_set self obj : FieldSelector.filterObject self obj [] = [].
Proof.
  unfold FieldSelector.filterObject. generalize (@nil (string * V)) as acc.
  induction obj as [| [key value] obj IH]; intros acc; [done |].
  rewrite filter_loop_cons. apply IH.
Qed.

End filterObject_facts.


(** C6 fails on the code: an own entry of the input whose key is
    [__proto__] and is selected is not copied to the result. *)
Lemma proto_entry_not_copied :
  FieldSelector.filterObject users_selector
    [("__proto__", JNumber 1); ("id", JNumber 2)] ["__proto__"; "id"]
  = [("id", JNumber 2)]
  ∧ FieldSelector.filterObject users_selector
      [("__proto__", JNumber 1); ("id", JNumber 2)] ["__proto__"; "id"]
    ≠ [("__proto__", JNumber 1); ("id", JNumber 2)].
Proof. split; vm_compute; [reflexivity | discriminate]. Qed.

(** * Further properties of the class *)

(** ** Construction *)

Section construction_outcomes.
Import FieldSelector.

(** Storing a group leaves the other own properties alone, and the
    prototype too unless the group is named [__proto__]. *)
Lemma set_frame groups name s groups' other :
  Groups.set groups name s = inr groups' → other ≠ name →
  Groups.own groups' !! other = Groups.own groups !! other
  ∧ (name ≠ "__proto__" → Groups.proto groups' = Groups.proto groups).
Proof.
  intros Hset Hother. unfold Groups.set in Hset.
  assert (∀ g, g = {| Groups.own := <[name := s]> (Groups.own groups);
                      Groups.proto := Groups.proto groups |} →
               Groups.own g !! other = Groups.own groups !! other
               ∧ (name ≠ "__proto__" → Groups.proto g = Groups.proto groups)) as Hins.
  { intros g ->. simpl. by rewrite lookup_insert_ne. }
  destruct (Groups.own groups !! name); [injection Hset as <-; by apply Hins |].
  case_bool_decide; [by injection Hset as <- |].
  destruct (Groups.proto groups) eqn:Hproto; [injection Hset as <-; by apply Hins |].
  case_bool_decide; [done |]. injection Hset as <-. by apply Hins.
Qed.

(** A group that has just been stored is read back. *)
Lemma get_set groups name s groups' :
  Groups.set groups name s = inr groups' →
  Groups.get groups' name = inr (Groups.SetValue s).
Proof.
  unfold Groups.set, Groups.get.
  destruct (Groups.own groups !! name) eqn:Hown.
  { intros [= <-]. simpl. by rewrite lookup_insert_eq. }
  case_bool_decide as Hproto.
  { intros [= <-]. simpl. by rewrite Hown. }
  destruct (Groups.proto groups).
  - intros [= <-]. simpl. by rewrite lookup_insert_eq.
  - case_bool_decide; [done |]. intros [= <-]. simpl. by rewrite lookup_insert_eq.
Qed.

(** What a read of a name yields is fixed by the own property of that
    name and, for [__proto__], by the prototype, once the name is own or
    is [__proto__]. *)
Lemma get_frame groups groups' name s :
  Groups.get groups name = inr (Groups.SetValue s) →
  Groups.own groups !! name ≠ None ∨ name = "__proto__" →
  Groups.own groups' !! name = Groups.own groups !! name →
  (name = "__proto__" → Groups.proto groups' = Groups.proto groups) →
  Groups.get groups' name = inr (Groups.SetValue s).
Proof.
  unfold Groups.get. intros Hget Hcase Hown Hproto. rewrite Hown.
  destruct (Groups.own groups !! name); [done |].
  destruct Hcase as [? | ->]; [done |].
  rewrite bool_decide_eq_true_2 in Hget |- * by done. by rewrite Hproto.
Qed.

Lemma get_set_case groups name s groups' :
  Groups.set groups name s = inr groups' →
  Groups.own groups' !! name ≠ None ∨ name = "__proto__".
Proof.
  unfold Groups.set. destruct (Groups.own groups !! name) eqn:Hown.
  { intros [= <-]. left. simpl. by rewrite lookup_insert_eq. }
  case_bool_decide; [by right |].
  destruct (Groups.proto groups).
  - intros [= <-]. left. simpl. by rewrite lookup_insert_eq.
  - case_bool_decide; [done |]. intros [= <-]. left. simpl. by rewrite lookup_insert_eq.
Qed.

Lemma init_groups_frame available entries :
  ∀ groups groups' other,
    init_groups available entries groups = inr groups' →
    other ∉ entries.*1 →
    Groups.own groups' !! other = Groups.own groups !! other
    ∧ ("__proto__" ∉ entries.*1 → Groups.proto groups' = Groups.proto groups).
Proof.
  induction entries as [| [name fields] rest IH]; intros groups groups' other; simpl.
  - by intros [= <-].
  - destruct (JsArray.every _ fields); simpl; [| done].
    destruct (Groups.set groups name (JsSet.of_list fields)) as [| g1] eqn:Hset; [done |].
    intros Hinit Hother. apply not_elem_of_cons in Hother as [Hne Hother].
    destruct (IH _ _ _ Hinit Hother) as [Hown Hproto].
    destruct (set_frame _ _ _ _ other Hset Hne) as [Hown1 Hproto1].
    split; [by rewrite Hown, Hown1 |].
    intros [Hp Hrest]%not_elem_of_cons. rewrite Hproto by done. apply Hproto1. done.
Qed.

(** Every group of a mapping with distinct names is read back after the
    loop. *)
Lemma init_groups_get available entries :
  ∀ groups groups' name fields,
    init_groups available entries groups = inr groups' →
    NoDup entries.*1 → (name, fields) ∈ entries →
    Groups.get groups' name = inr (Groups.SetValue (JsSet.of_list fields)).
Proof.
  induction entries as [| [name' fields'] rest IH]; intros groups groups' name fields; simpl.
  - intros _ _ Hin. by apply elem_of_nil in Hin.
  - destruct (JsArray.every _ fields'); simpl; [| done].
    destruct (Groups.set groups name' (JsSet.of_list fields')) as [| g1] eqn:Hset; [done |].
    intros Hinit [Hfresh Hnd]%NoDup_cons [[= -> ->] | Hin]%elem_of_cons.
    + destruct (init_groups_frame _ _ _ _ name' Hinit Hfresh) as [Hown Hproto].
      apply (get_frame g1);
        [by eapply get_set | by eapply get_set_case | done |].
      intros ->. by apply Hproto.
    + by eapply IH.
Qed.

(** The loop succeeds only on valid groups. *)
Lemma init_groups_valid available entries :
  ∀ groups groups',
    init_groups available entries groups = inr groups' →
    Forall (λ entry, entry.2 ⊆ available) entries.
Proof.
  induction entries as [| [name fields] rest IH]; intros groups groups'; simpl; [done |].
  destruct (JsArray.every _ fields) eqn:Hevery; simpl; [| done].
  apply every_includes in Hevery.
  destruct (Groups.set groups name (JsSet.of_list fields)) as [| g1] eqn:Hset; [done |].
  intros Hinit. constructor; [done | by eapply IH].
Qed.

(** The loop succeeds on valid groups none of which is named [__proto__]. *)
Lemma init_groups_returns available entries :
  Forall (λ entry, entry.2 ⊆ available) entries → "__proto__" ∉ entries.*1 →
  ∀ groups, Groups.proto groups = Groups.ObjectPrototype →
            ∃ groups', init_groups available entries groups = inr groups'.
Proof.
  induction 1 as [| [name fields] rest Hfields _ IH]; intros Hproto groups Hg; simpl.
  - by eexists.
  - apply not_elem_of_cons in Hproto as [Hname Hrest]. simpl in Hfields, Hname.
    apply every_includes in Hfields. rewrite Hfields. simpl.
    destruct (set_ordinary groups name (JsSet.of_list fields) Hg) as (g1 & -> & Hg1);
      [done |].
    by apply IH.
Qed.

(** How the loop can fail: with the error of a supplied group that has a
    field outside the available ones, or with a TypeError when a group is
    named [size] and the prototype is, or becomes, a Set. *)
Lemma init_groups_failure available entries :
  ∀ groups e,
    init_groups available entries groups = inl e →
    (∃ name fields, (name, fields) ∈ entries ∧ ¬ fields ⊆ available
       ∧ e = Error ("Group " +:+ name +:+ " contains invalid fields: "
                      +:+ JsString.join ", " fields))
    ∨ (e = TypeError ∧ "size" ∈ entries.*1
       ∧ (Groups.proto groups ≠ Groups.ObjectPrototype ∨ "__proto__" ∈ entries.*1)).
Proof.
  induction entries as [| [name fields] rest IH]; intros groups e; simpl; [done |].
  destruct (JsArray.every _ fields) eqn:Hevery; simpl.
  - destruct (Groups.set groups name (JsSet.of_list fields)) as [e' | g1] eqn:Hset.
    + intros [= <-]. right. unfold Groups.set in Hset.
      destruct (Groups.own groups !! name); [done |].
      case_bool_decide; [done |].
      destruct (Groups.proto groups) eqn:Hproto; [done |].
      case_bool_decide as Hsize; [| done]. injection Hset as <-. subst name.
      split_and!; [done | by left | by left].
    + intros Hinit. destruct (IH _ _ Hinit) as [(n & fs & Hin & Hbad & ->) | (-> & Hsize & Hp)].
      * left. exists n, fs. split_and!; [by right | done | done].
      * right. split_and!; [done | by right |].
        destruct Hp as [Hp | Hp]; [| right; by right].
        destruct (decide (name = "__proto__")) as [-> | Hname]; [right; by left |].
        left. intros Hg. apply Hp. unfold Groups.set in Hset.
        destruct (Groups.own groups !! name); [by injection Hset as <- |].
        rewrite bool_decide_eq_false_2 in Hset by done. rewrite Hg in Hset.
        by injection Hset as <-.
  - intros [= <-]. left. exists name, fields. split_and!; [by left | | done].
    intros Hsub%every_includes. by rewrite Hsub in Hevery.
Qed.

End construction_outcomes.

(** X1. When no supplied group is named [__proto__], construction succeeds
    exactly when [availableFields] and [defaultFields] are given and not
    empty, every default field is an available field, and every field of
    every group is an available field. *)
Theorem construction_succeeds_iff options cfg :
  "__proto__" ∉ (default [] (Options.fieldGroups options)).*1 →
  (∃ self, FieldSelector.new options cfg = inr self)
  ↔ ∃ available defaults,
      Options.availableFields options = Some available
      ∧ Options.defaultFields options = Some defaults
      ∧ available ≠ [] ∧ defaults ≠ [] ∧ defaults ⊆ available
      ∧ Forall (λ entry, entry.2 ⊆ available) (default [] (Options.fieldGroups options)).
Proof.
  intros Hproto. split.
  - intros [self Hnew]. pose proof Hnew as Hinr.
    apply new_inr in Hinr as (available & defaults & Ha & Hd & Hane & Hdne & Hsub & _).
    exists available, defaults. split_and!; try done.
    unfold FieldSelector.new in Hnew. rewrite Ha, Hd in Hnew.
    destruct available as [| a available]; [done |].
    destruct defaults as [| d defaults]; [done |].
    destruct (negb _); [done |].
    destruct (Options.fieldGroups options) as [entries |]; [| by constructor].
    destruct (FieldSelector.init_groups (a :: available) entries Groups.empty)
      as [| groups] eqn:Hinit; [done |].
    by eapply init_groups_valid.
  - intros (available & defaults & Ha & Hd & Hane & Hdne & Hsub & Hgroups).
    unfold FieldSelector.new. rewrite Ha, Hd.
    destruct available as [| a available]; [done |].
    destruct defaults as [| d defaults]; [done |].
    apply every_includes in Hsub. rewrite Hsub. cbn [negb].
    destruct (Options.fieldGroups options) as [entries |]; [| by eexists].
    destruct (init_groups_returns (a :: available) entries Hgroups Hproto Groups.empty)
      as [groups ->]; [done |]. by eexists.
Qed.

Lemma construction_succeeds_iff_witness :
  ("__proto__" ∉ (default [] (Options.fieldGroups defaultOptions)).*1)
  ∧ ((∃ self, FieldSelector.new defaultOptions Config.empty = inr self)
     ↔ ∃ available defaults,
         Options.availableFields defaultOptions = Some available
         ∧ Options.defaultFields defaultOptions = Some defaults
         ∧ available ≠ [] ∧ defaults ≠ [] ∧ defaults ⊆ available
         ∧ Forall (λ entry, entry.2 ⊆ available)
             (default [] (Options.fieldGroups defaultOptions))).
Proof.
  split; [decide_now |].
  apply (construction_succeeds_iff defaultOptions Config.empty). decide_now.
Defined.

(** X2. A construction that fails raises one of the three fixed Errors,
    the Error of a supplied group that has a field outside the available
    ones, or a TypeError; the TypeError only when the mapping has a group
    named [__proto__] and a group named [size]. *)
Theorem construction_failures options cfg e :
  FieldSelector.new options cfg = inl e →
  e = Error "availableFields must be provided and non-empty"
  ∨ e = Error "defaultFields must be provided and non-empty"
  ∨ e = Error "Default fields has values not present in available fields"
  ∨ (∃ name fields,
       (name, fields) ∈ default [] (Options.fieldGroups options)
       ∧ ¬ fields ⊆ default [] (Options.availableFields options)
       ∧ e = Error ("Group " +:+ name +:+ " contains invalid fields: "
                      +:+ JsString.join ", " fields))
  ∨ (e = TypeError
     ∧ "__proto__" ∈ (default [] (Options.fieldGroups options)).*1
     ∧ "size" ∈ (default [] (Options.fieldGroups options)).*1).
Proof.
  unfold FieldSelector.new.
  destruct (Options.availableFields options) as [[| a available] |];
    [intros [= <-]; by left | | intros [= <-]; by left].
  destruct (Options.defaultFields options) as [[| d defaults] |];
    [intros [= <-]; right; by left | | intros [= <-]; right; by left].
  destruct (negb _); [intros [= <-]; right; right; by left |].
  destruct (Options.fieldGroups options) as [entries |]; [| done].
  destruct (FieldSelector.init_groups (a :: available) entries Groups.empty)
    as [e' |] eqn:Hinit; [| done].
  intros [= <-]. right; right; right.
  apply init_groups_failure in Hinit as [Hgroup | (-> & Hsize & [Hp | Hp])].
  - by left.
  - done.
  - right. done.
Qed.

Lemma construction_failures_witness :
  FieldSelector.new
    (Options.mk (Some ["id"]) (Some ["id"])
       (Some [("__proto__", ["id"]); ("size", ["id"]); ("bad", ["nope"])]))
    Config.empty = inl TypeError
  ∧ (TypeError = Error "availableFields must be provided and non-empty"
     ∨ TypeError = Error "defaultFields must be provided and non-empty"
     ∨ TypeError = Error "Default fields has values not present in available fields"
     ∨ (∃ name fields,
          (name, fields) ∈ [("__proto__", ["id"]); ("size", ["id"]); ("bad", ["nope"])]
          ∧ ¬ fields ⊆ ["id"]
          ∧ TypeError = Error ("Group " +:+ name +:+ " contains invalid fields: "
                                 +:+ JsString.join ", " fields))
     ∨ (TypeError = TypeError
        ∧ "__proto__" ∈ [("__proto__", ["id"]); ("size", ["id"]); ("bad", ["nope"])].*1
        ∧ "size" ∈ [("__proto__", ["id"]); ("size", ["id"]); ("bad", ["nope"])].*1)).
Proof.
  split; [vm_compute; reflexivity |].
  apply (construction_failures
           (Options.mk (Some ["id"]) (Some ["id"])
              (Some [("__proto__", ["id"]); ("size", ["id"]); ("bad", ["nope"])]))
           Config.empty TypeError).
  vm_compute. reflexivity.
Defined.

(** X3. After a construction from groups with distinct names, a token
    [@name] that names a supplied group adds the fields of that group, each
    once and in the order of their first occurrence, to the selection; this
    holds also for a name the groups object inherits, such as
    [constructor]. *)
Theorem supplied_group_token_adds_its_fields
    options cfg self entries name fields rest selectedFields :
  FieldSelector.new options cfg = inr self →
  Options.fieldGroups options = Some entries →
  NoDup entries.*1 →
  (name, fields) ∈ entries →
  FieldSelector.parse_loop self (String "@" name :: rest) selectedFields
  = FieldSelector.parse_loop self rest
      (JsSet.add_all (first_occurrences fields) selectedFields).
Proof.
  intros Hnew Hgroups Hnd Hin.
  assert (Groups.get (FieldSelector.fieldGroups self) name
          = inr (Groups.SetValue (JsSet.of_list fields))) as Hget.
  { unfold FieldSelector.new in Hnew. rewrite Hgroups in Hnew.
    destruct (Options.availableFields options) as [[| a available] |]; try done.
    destruct (Options.defaultFields options) as [[| d defaults] |]; try done.
    destruct (negb _); [done |].
    destruct (FieldSelector.init_groups (a :: available) entries Groups.empty)
      as [| groups] eqn:Hinit; [done |].
    injection Hnew as <-. simpl. by eapply init_groups_get. }
  cbn [FieldSelector.parse_loop]. rewrite <- of_list_first_occurrences.
  replace (JsString.startsWith "@" (String "@" name)) with true
    by (by destruct name).
  cbn [JsString.slice1]. by rewrite Hget.
Qed.

Lemma supplied_group_token_adds_its_fields_witness :
  FieldSelector.new
    (Options.mk (Some ["id"; "name"]) (Some ["id"])
       (Some [("constructor", ["name"; "id"; "name"])])) Config.empty
  = inr (FieldSelector.mk ["id"; "name"] ["id"]
           (Groups.mk {[ "constructor" := ["name"; "id"] ]} Groups.ObjectPrototype)
           (FieldSelector.mk_config "fields" "x-fields" ","))
  ∧ Options.fieldGroups
      (Options.mk (Some ["id"; "name"]) (Some ["id"])
         (Some [("constructor", ["name"; "id"; "name"])]))
    = Some [("constructor", ["name"; "id"; "name"])]
  ∧ NoDup [("constructor", ["name"; "id"; "name"])].*1
  ∧ ("constructor", ["name"; "id"; "name"]) ∈ [("constructor", ["name"; "id"; "name"])]
  ∧ FieldSelector.parse_loop
      (FieldSelector.mk ["id"; "name"] ["id"]
         (Groups.mk {[ "constructor" := ["name"; "id"] ]} Groups.ObjectPrototype)
         (FieldSelector.mk_config "fields" "x-fields" ","))
      [String "@" "constructor"] []
    = FieldSelector.parse_loop
        (FieldSelector.mk ["id"; "name"] ["id"]
           (Groups.mk {[ "constructor" := ["name"; "id"] ]} Groups.ObjectPrototype)
           (FieldSelector.mk_config "fields" "x-fields" ","))
        [] (JsSet.add_all (first_occurrences ["name"; "id"; "name"]) []).
Proof.
  split; [vm_compute; reflexivity |]. split; [reflexivity |].
  split; [decide_now |]. split; [decide_now |].
  apply (supplied_group_token_adds_its_fields
           (Options.mk (Some ["id"; "name"]) (Some ["id"])
              (Some [("constructor", ["name"; "id"; "name"])]))
           Config.empty _ [("constructor", ["name"; "id"; "name"])]);
    [vm_compute; reflexivity | reflexivity | decide_now | decide_now].
Defined.

(** X4. Each setting of a constructed selector ([queryParam], [headerName],
    [separator]) is the configured string when that is not empty, and its
    default ("fields", "x-fields", ",") when it is missing or empty; none
    of the three is ever the empty string. *)
Theorem configuration_defaults options cfg self :
  FieldSelector.new options cfg = inr self →
  let resolved (given : option string) (fallback value : string) :=
    value ≠ ""
    ∧ (∀ c s, given = Some (String c s) → value = String c s)
    ∧ (given = None ∨ given = Some "" → value = fallback) in
  resolved (Config.queryParam cfg) "fields"
    (FieldSelector.queryParam (FieldSelector.config self))
  ∧ resolved (Config.headerName cfg) "x-fields"
      (FieldSelector.headerName (FieldSelector.config self))
  ∧ resolved (Config.separator cfg) ","
      (FieldSelector.separator (FieldSelector.config self)).
Proof.
  intros Hnew. unfold FieldSelector.new in Hnew.
  destruct (Options.availableFields options) as [[| a available] |]; try done.
  destruct (Options.defaultFields options) as [[| d defaults] |]; try done.
  destruct (negb _); [done |].
  destruct (match Options.fieldGroups options with
            | Some entries => _
            | None => _
            end); [done |].
  injection Hnew as <-. cbn.
  assert (∀ given fallback, fallback ≠ "" →
            FieldSelector.or_default given fallback ≠ ""
            ∧ (∀ c s, given = Some (String c s) →
                      FieldSelector.or_default given fallback = String c s)
            ∧ (given = None ∨ given = Some "" →
               FieldSelector.or_default given fallback = fallback)) as Hor.
  { intros [[| c0 s0] |] fallback Hne; cbn; split_and!;
      first [ done | by intros ? ? [=] | by intros ? ? [= -> ->]
            | by intros [[=] | [=]] ]. }
  split_and!; by apply Hor.
Qed.

Lemma configuration_defaults_witness :
  FieldSelector.new defaultOptions (Config.mk (Some "select") (Some "") None)
  = inr (FieldSelector.mk
           (FieldSelector.availableFields users_selector)
           (FieldSelector.defaultFields users_selector)
           (FieldSelector.fieldGroups users_selector)
           (FieldSelector.mk_config "select" "x-fields" ","))
  ∧ (("select" ≠ ""
      ∧ (∀ c s, Some "select" = Some (String c s) → "select" = String c s)
      ∧ (Some "select" = None ∨ Some "select" = Some "" → "select" = "fields"))
     ∧ ("x-fields" ≠ ""
        ∧ (∀ c s, Some "" = Some (String c s) → "x-fields" = String c s)
        ∧ (Some "" = None ∨ Some "" = Some "" → "x-fields" = "x-fields"))
     ∧ ("," ≠ ""
        ∧ (∀ c s, @None string = Some (String c s) → "," = String c s)
        ∧ (@None string = None ∨ @None string = Some "" → "," = ","))).
Proof.
  split; [vm_compute; reflexivity |].
  apply (configuration_defaults defaultOptions
           (Config.mk (Some "select") (Some "") None)
           (FieldSelector.mk
              (FieldSelector.availableFields users_selector)
              (FieldSelector.defaultFields users_selector)
              (FieldSelector.fieldGroups users_selector)
              (FieldSelector.mk_config "select" "x-fields" ","))).
  vm_compute. reflexivity.
Defined.

(** X5. For a constructed selector, [getAvailableFields] and
    [getDefaultFields] return non-empty lists without repetitions, and
    every default field is among the available fields. *)
Theorem accessor_lists_invariant options cfg self :
  FieldSelector.new options cfg = inr self →
  FieldSelector.getAvailableFields self ≠ []
  ∧ FieldSelector.getDefaultFields self ≠ []
  ∧ NoDup (FieldSelector.getAvailableFields self)
  ∧ NoDup (FieldSelector.getDefaultFields self)
  ∧ FieldSelector.getDefaultFields self ⊆ FieldSelector.getAvailableFields self.
Proof.
  intros Hnew. pose proof (new_invariant _ _ _ Hnew) as [Hne Hsub _].
  apply new_inr in Hnew as (available & defaults & _ & _ & Hane & _ & _ & Ha & Hd & _).
  unfold FieldSelector.getAvailableFields, FieldSelector.getDefaultFields, JsSet.to_array.
  split_and!; try done.
  - rewrite Ha. intros Heq. by apply add_all_nil_inv in Heq as [-> _].
  - rewrite Ha. apply of_list_NoDup.
  - rewrite Hd. apply of_list_NoDup.
Qed.

Lemma accessor_lists_invariant_witness :
  FieldSelector.new defaultOptions Config.empty = inr users_selector
  ∧ FieldSelector.getAvailableFields users_selector ≠ []
  ∧ FieldSelector.getDefaultFields users_selector ≠ []
  ∧ NoDup (FieldSelector.getAvailableFields users_selector)
  ∧ NoDup (FieldSelector.getDefaultFields users_selector)
  ∧ FieldSelector.getDefaultFields users_selector
    ⊆ FieldSelector.getAvailableFields users_selector.
Proof.
  split; [vm_compute; reflexivity |].
  apply (accessor_lists_invariant defaultOptions Config.empty users_selector).
  vm_compute. reflexivity.
Defined.

(** ** The loop of [parseFieldsInput] *)

Section parse_facts.
Import FieldSelector.

Lemma parse_loop_cons self field rest selectedFields :
  parse_loop self (field :: rest) selectedFields
  = match token_fields self field with
    | inl e => inl e
    | inr fields => parse_loop self rest (JsSet.add_all fields selectedFields)
    end.
Proof.
  cbn [parse_loop]. unfold token_fields.
  destruct (JsString.startsWith "@" field).
  - destruct (Groups.get (fieldGroups self) (JsString.slice1 field)) as [| [| |]];
      try done.
    by destruct (JsSet.has (availableFields self) field).
  - by destruct (JsSet.has (availableFields self) field).
Qed.

Lemma token_fields_raises self field e : token_fields self field = inl e → e = TypeError.
Proof.
  unfold token_fields. destruct (JsString.startsWith "@" field); [| done].
  unfold Groups.get.
  destruct (Groups.own (fieldGroups self) !! JsString.slice1 field); [done |].
  destruct (Groups.proto (fieldGroups self)); repeat case_bool_decide;
    intros [= <-]; done.
Qed.

Lemma parse_loop_inr self requestedFields :
  ∀ selectedFields result,
    parse_loop self requestedFields selectedFields = inr result →
    Forall (λ field, ∃ fields, token_fields self field = inr fields) requestedFields
    ∧ (NoDup selectedFields → NoDup result)
    ∧ ∀ x, x ∈ result ↔
           x ∈ selectedFields
           ∨ ∃ field fields, field ∈ requestedFields
                             ∧ token_fields self field = inr fields ∧ x ∈ fields.
Proof.
  induction requestedFields as [| field rest IH]; intros selectedFields result.
  - intros [= <-]. split_and!; [done | done |]. intros x. split; [by left |].
    intros [? | (f & fs & Hin & _)]; [done | by apply elem_of_nil in Hin].
  - rewrite parse_loop_cons. destruct (token_fields self field) as [| fields] eqn:Htoken;
      [done |].
    intros (Hall & Hnd & Hmem)%IH. split_and!.
    + constructor; [by eexists | done].
    + intros Hsel. by apply Hnd, add_all_NoDup.
    + intros x. rewrite Hmem, elem_of_add_all. split.
      * intros [[Hx | Hx] | (f & fs & Hin & Hf & Hx)].
        -- right. exists field, fields. split_and!; [by left | done | done].
        -- by left.
        -- right. exists f, fs. split_and!; [by right | done | done].
      * intros [Hx | (f & fs & [-> | Hin]%elem_of_cons & Hf & Hx)].
        -- left. by right.
        -- rewrite Htoken in Hf. injection Hf as <-. left. by left.
        -- right. by exists f, fs.
Qed.

Lemma parse_loop_inl self requestedFields :
  ∀ selectedFields e,
    parse_loop self requestedFields selectedFields = inl e →
    e = TypeError
    ∧ ∃ field, field ∈ requestedFields ∧ token_fields self field = inl TypeError.
Proof.
  induction requestedFields as [| field rest IH]; intros selectedFields e; [done |].
  rewrite parse_loop_cons. destruct (token_fields self field) as [e' | fields] eqn:Htoken.
  - intros [= <-]. pose proof (token_fields_raises _ _ _ Htoken) as ->.
    split; [done |]. exists field. split; [by left | done].
  - intros (-> & f & Hin & Hf)%IH. split; [done |]. exists f. split; [by right | done].
Qed.

(** The order of the tokens decides neither whether the loop ends
    normally nor which fields the result holds. *)
Lemma parse_loop_permutation self requestedFields requestedFields' :
  requestedFields ≡ₚ requestedFields' →
  match parse_loop self requestedFields [], parse_loop self requestedFields' [] with
  | inr result, inr result' => result ≡ₚ result'
  | inl e, inl e' => e = e'
  | _, _ => False
  end.
Proof.
  intros Hperm.
  destruct (parse_loop self requestedFields []) as [e | result] eqn:Hparse;
    destruct (parse_loop self requestedFields' []) as [e' | result'] eqn:Hparse'.
  - apply parse_loop_inl in Hparse as [-> _]. by apply parse_loop_inl in Hparse' as [-> _].
  - apply parse_loop_inl in Hparse as (_ & f & Hin & Hf).
    apply parse_loop_inr in Hparse' as (Hall & _).
    rewrite <- Hperm in Hall. apply (proj1 (Forall_forall _ _) Hall) in Hin as [fs Hfs].
    by rewrite Hf in Hfs.
  - apply parse_loop_inl in Hparse' as (_ & f & Hin & Hf).
    apply parse_loop_inr in Hparse as (Hall & _).
    rewrite Hperm in Hall. apply (proj1 (Forall_forall _ _) Hall) in Hin as [fs Hfs].
    by rewrite Hf in Hfs.
  - apply parse_loop_inr in Hparse as (_ & Hnd & Hmem).
    apply parse_loop_inr in Hparse' as (_ & Hnd' & Hmem').
    apply NoDup_Permutation; [apply Hnd; constructor | apply Hnd'; constructor |].
    intros x. rewrite Hmem, Hmem'. split.
    + intros [? | (f & fs & Hin & Hf & Hx)]; [by left |].
      right. exists f, fs. by rewrite <- Hperm.
    + intros [? | (f & fs & Hin & Hf & Hx)]; [by left |].
      right. exists f, fs. by rewrite Hperm.
Qed.

End parse_facts.

(** ** [split] with a separator of one code unit *)

Section split_facts.
Import JsString.

Lemma split_scan_nonempty sep skip s : split_scan sep skip s ≠ [].
Proof.
  revert skip. induction s as [| x s IH]; intros skip; [done |].
  cbn [split_scan]. destruct skip; [| apply IH].
  destruct (String.prefix sep (String x s)); [done |].
  by destruct (split_scan sep 0 s).
Qed.

Lemma split_char_separator c s :
  split (String c "") (String c s) = "" :: split (String c "") s.
Proof.
  unfold split. cbn [split_scan String.prefix].
  destruct (ascii_dec c c); [| done]. by destruct s.
Qed.

Lemma split_char_piece c piece s :
  c ∉ list_ascii_of_string piece →
  split (String c "") (piece +:+ s)
  = match split (String c "") s with
    | first :: others => (piece +:+ first) :: others
    | [] => []
    end.
Proof.
  unfold split. induction piece as [| x piece IH]; intros Hc.
  - change ("" +:+ s) with s. destruct (split_scan (String c "") 0 s) eqn:Hs; [| done].
    by apply split_scan_nonempty in Hs.
  - change (String x piece +:+ s) with (String x (piece +:+ s)).
    cbn [list_ascii_of_string] in Hc. apply not_elem_of_cons in Hc as [Hx Hc].
    cbn [split_scan String.prefix]. destruct (ascii_dec c x) as [-> | _]; [done |].
    rewrite (IH Hc). destruct (split_scan (String c "") 0 s) eqn:Hs; [| done].
    by apply split_scan_nonempty in Hs.
Qed.

Lemma append_empty_r s : s +:+ "" = s.
Proof.
  induction s as [| x s IH]; [done |].
  change (String x s +:+ "") with (String x (s +:+ "")). by rewrite IH.
Qed.

(** Splitting what [join] built gives the pieces back. *)
Lemma split_join_char c pieces :
  pieces ≠ [] →
  Forall (λ piece, c ∉ list_ascii_of_string piece) pieces →
  split (String c "") (join (String c "") pieces) = pieces.
Proof.
  intros Hne Hall. induction Hall as [| piece rest Hpiece Hrest IH]; [done |].
  destruct rest as [| piece' rest].
  - change (join (String c "") [piece]) with piece.
    rewrite <- (append_empty_r piece) at 1. rewrite split_char_piece by done.
    cbn. by rewrite append_empty_r.
  - change (join (String c "") (piece :: piece' :: rest))
      with (piece +:+ String c (join (String c "") (piece' :: rest))).
    rewrite split_char_piece by done. rewrite split_char_separator, IH by done.
    by rewrite append_empty_r.
Qed.

End split_facts.

(** ** Selection strings *)

Section selection_strings.
Import FieldSelector.

(** X6. With a separator of one code unit, the order of the tokens of a
    selection string decides neither whether [parseFieldsInput] raises nor
    which fields it returns: two strings with the same tokens in another
    order give the same exception, or sets with the same members. *)
Theorem selection_order_independent self c tokens tokens' :
  separator (config self) = String c "" →
  Forall (λ token, c ∉ list_ascii_of_string token) tokens →
  tokens ≡ₚ tokens' →
  match parseFieldsInput self (JsString.join (String c "") tokens),
        parseFieldsInput self (JsString.join (String c "") tokens') with
  | inr result, inr result' => result ≡ₚ result'
  | inl e, inl e' => e = e'
  | _, _ => False
  end.
Proof.
  intros Hsep Hall Hperm. destruct tokens as [| token tokens].
  { apply Permutation_nil_l in Hperm as <-.
    destruct (parseFieldsInput self (JsString.join (String c "") [])); reflexivity. }
  assert (tokens' ≠ []) as Hne'.
  { intros ->. by apply Permutation_nil_r in Hperm. }
  assert (Forall (λ token, c ∉ list_ascii_of_string token) tokens') as Hall'
    by (by rewrite <- Hperm).
  unfold parseFieldsInput. rewrite Hsep, !split_join_char by done.
  apply parse_loop_permutation. by apply fmap_Permutation.
Qed.

Lemma selection_order_independent_witness :
  separator (config users_selector) = String "," ""
  ∧ Forall (λ token, ","%char ∉ list_ascii_of_string token)
      ["@contact"; " id"; "zip"; "email "]
  ∧ ["@contact"; " id"; "zip"; "email "] ≡ₚ [" id"; "@contact"; "zip"; "email "]
  ∧ match parseFieldsInput users_selector
            (JsString.join (String "," "") ["@contact"; " id"; "zip"; "email "]),
          parseFieldsInput users_selector
            (JsString.join (String "," "") [" id"; "@contact"; "zip"; "email "]) with
    | inr result, inr result' => result ≡ₚ result'
    | inl e, inl e' => e = e'
    | _, _ => False
    end.
Proof.
  split; [reflexivity |]. split; [decide_now |]. split; [apply Permutation_swap |].
  apply (selection_order_independent users_selector ","%char
           ["@contact"; " id"; "zip"; "email "] [" id"; "@contact"; "zip"; "email "]);
    [reflexivity | decide_now | apply Permutation_swap].
Defined.

Lemma set_ordinary_own groups name s :
  Groups.proto groups = Groups.ObjectPrototype → name ≠ "__proto__" →
  Groups.set groups name s
  = inr {| Groups.own := <[name := s]> (Groups.own groups);
           Groups.proto := Groups.ObjectPrototype |}.
Proof.
  intros Hproto Hname. unfold Groups.set. rewrite Hproto.
  destruct (Groups.own groups !! name); [done |].
  by rewrite bool_decide_eq_false_2.
Qed.

(** Without a group named [__proto__], the own properties of the groups
    object are the supplied groups and its prototype stays
    [Object.prototype]. *)
Lemma init_groups_own available entries :
  ∀ groups groups',
    init_groups available entries groups = inr groups' →
    "__proto__" ∉ entries.*1 →
    Groups.proto groups = Groups.ObjectPrototype →
    Groups.proto groups' = Groups.ObjectPrototype
    ∧ ∀ name, Groups.own groups' !! name = None
              ↔ (name ∉ entries.*1) ∧ Groups.own groups !! name = None.
Proof.
  induction entries as [| [name fields] rest IH]; intros groups groups'; simpl.
  - intros [= <-] _ Hproto. split; [done |]. intros n. split; [| by intros [_ ?]].
    intros Hn. split; [apply not_elem_of_nil | done].
  - destruct (JsArray.every _ fields); simpl; [| done].
    intros Hinit [Hname Hrest]%not_elem_of_cons Hproto.
    rewrite set_ordinary_own in Hinit by done.
    destruct (IH _ _ Hinit Hrest eq_refl) as [Hproto' Hown]. split; [done |].
    intros n. rewrite Hown. simpl. rewrite lookup_insert, not_elem_of_cons.
    case_decide as Hn; [subst n |]; split.
    + by intros [_ ?].
    + by intros [[? _] _].
    + intros [? ?]. split_and!; [by intros -> | done | done].
    + by intros [[_ ?] ?].
Qed.

Lemma new_own_groups options cfg self :
  new options cfg = inr self →
  "__proto__" ∉ (default [] (Options.fieldGroups options)).*1 →
  Groups.proto (fieldGroups self) = Groups.ObjectPrototype
  ∧ ∀ name, Groups.own (fieldGroups self) !! name = None
            ↔ name ∉ (default [] (Options.fieldGroups options)).*1.
Proof.
  unfold new. intros Hnew Hproto.
  destruct (Options.availableFields options) as [[| a available] |]; try done.
  destruct (Options.defaultFields options) as [[| d defaults] |]; try done.
  destruct (negb _); [done |].
  destruct (Options.fieldGroups options) as [entries |]; simpl in Hproto |- *.
  - destruct (init_groups (a :: available) entries Groups.empty) as [| groups] eqn:Hinit;
      [done |].
    injection Hnew as <-. simpl.
    destruct (init_groups_own _ _ _ _ Hinit Hproto eq_refl) as [Hp Hown].
    split; [done |]. intros name. rewrite Hown. simpl. rewrite lookup_empty. tauto.
  - injection Hnew as <-. simpl. split; [done |]. intros name.
    rewrite lookup_empty. split; [intros _; apply not_elem_of_nil | done].
Qed.

(** X7. For a selector constructed without a group named [__proto__],
    [getSelectedFields] raises nothing but a TypeError, and it raises
    exactly in two cases: what is read from the request is no string but a
    value the mapping inherits from [Object.prototype]; or it is a string
    and one of its trimmed tokens is [@name] where the name is [__proto__]
    or a method of [Object.prototype] and is not the name of a supplied
    group. *)
Theorem selection_raises_iff options cfg self request :
  new options cfg = inr self →
  "__proto__" ∉ (default [] (Options.fieldGroups options)).*1 →
  (∀ e, getSelectedFields self request = inl e → e = TypeError)
  ∧ (getSelectedFields self request = inl TypeError
     ↔ extractFieldsFromRequest self request = Some NotAString
       ∨ ∃ fieldsInput token,
           extractFieldsFromRequest self request = Some (Str fieldsInput)
           ∧ token ∈ map JsString.trim
                       (JsString.split (separator (config self)) fieldsInput)
           ∧ JsString.startsWith "@" token = true
           ∧ JsString.slice1 token ∈ "__proto__" :: Groups.object_prototype_methods
           ∧ JsString.slice1 token ∉ (default [] (Options.fieldGroups options)).*1).
Proof.
  intros Hnew Hnoproto.
  destruct (new_own_groups _ _ _ Hnew Hnoproto) as [Hproto Hown].
  assert (∀ token,
            token_fields self token = inl TypeError
            ↔ JsString.startsWith "@" token = true
              ∧ JsString.slice1 token ∈ "__proto__" :: Groups.object_prototype_methods
              ∧ JsString.slice1 token ∉ (default [] (Options.fieldGroups options)).*1)
    as Htoken.
  { intros token. unfold token_fields, Groups.get. rewrite Hproto, <- Hown.
    destruct (JsString.startsWith "@" token); [| split; [done | by intros [? _]]].
    destruct (Groups.own (fieldGroups self) !! JsString.slice1 token).
    { split; [done | by intros (_ & _ & ?)]. }
    rewrite elem_of_cons. case_bool_decide as Hp.
    { split; [intros _; split_and!; [done | by left | done] | done]. }
    case_bool_decide as Hm.
    { split; [intros _; split_and!; [done | by right | done] | done]. }
    split; [intros [=] | by intros (_ & [? | ?] & _)]. }
  unfold getSelectedFields, parseFieldsInput.
  destruct (extractFieldsFromRequest self request) as [[[| c fieldsInput] |] |].
  - split; [done |]. split; [done |].
    intros [[=] | (fieldsInput & token & [= <-] & Hin & Hat & _)].
    cbn in Hin. apply list_elem_of_singleton in Hin as ->. done.
  - set (tokens := map JsString.trim
                     (JsString.split (separator (config self)) (String c fieldsInput))).
    destruct (parse_loop self tokens JsSet.empty) as [e | result] eqn:Hparse.
    + apply parse_loop_inl in Hparse as (-> & token & Hin & Hf). split; [by intros e [= <-] |].
      split; [| done]. intros _. right. exists (String c fieldsInput), token.
      apply Htoken in Hf as (Hat & Hname & Hfree). by split_and!.
    + split; [by case_decide |]. split; [by case_decide |].
      intros [[=] | (fieldsInput' & token & [= <-] & Hin & Hrest)].
      apply parse_loop_inr in Hparse as (Hall & _).
      apply (proj1 (Forall_forall _ _) Hall) in Hin as [fs Hfs].
      apply Htoken in Hrest. by rewrite Hrest in Hfs.
  - split; [by intros e [= <-] |]. split; [by left | done].
  - split; [done |]. split; [done |].
    by intros [[=] | (fieldsInput & token & [=] & _)].
Qed.

Lemma selection_raises_iff_witness :
  new defaultOptions Config.empty = inr users_selector
  ∧ ("__proto__" ∉ (default [] (Options.fieldGroups defaultOptions)).*1)
  ∧ (∀ e, getSelectedFields users_selector (query_request "fields" "id, @valueOf") = inl e →
          e = TypeError)
  ∧ (getSelectedFields users_selector (query_request "fields" "id, @valueOf")
     = inl TypeError
     ↔ extractFieldsFromRequest users_selector (query_request "fields" "id, @valueOf")
       = Some NotAString
       ∨ ∃ fieldsInput token,
           extractFieldsFromRequest users_selector (query_request "fields" "id, @valueOf")
           = Some (Str fieldsInput)
           ∧ token ∈ map JsString.trim
                       (JsString.split (separator (config users_selector)) fieldsInput)
           ∧ JsString.startsWith "@" token = true
           ∧ JsString.slice1 token ∈ "__proto__" :: Groups.object_prototype_methods
           ∧ JsString.slice1 token ∉ (default [] (Options.fieldGroups defaultOptions)).*1).
Proof.
  split; [vm_compute; reflexivity |]. split; [decide_now |].
  apply (selection_raises_iff defaultOptions Config.empty users_selector);
    [vm_compute; reflexivity | decide_now].
Defined.

(** X8. When a non-empty selection string is read and
    [getSelectedFields] returns, a field is named by the string if it
    belongs to a Set that a token [@name] finds in the groups object, or is
    itself a token and an available field (and is not taken for a group
    reference). If some field is named, the result holds exactly the named
    fields; if none is, the result is the default-fields set. *)
Theorem selection_membership self request input result :
  extractFieldsFromRequest self request = Some (Str input) →
  input ≠ "" →
  getSelectedFields self request = inr result →
  let tokens := map JsString.trim (JsString.split (separator (config self)) input) in
  let named (x : string) :=
    ∃ token, token ∈ tokens
      ∧ ((∃ groupFields,
            JsString.startsWith "@" token = true
            ∧ Groups.get (fieldGroups self) (JsString.slice1 token)
              = inr (Groups.SetValue groupFields)
            ∧ x ∈ groupFields)
         ∨ (token = x ∧ x ∈ availableFields self
            ∧ (JsString.startsWith "@" x = true →
               Groups.get (fieldGroups self) (JsString.slice1 x) = inr Groups.Undefined))) in
  ((∃ x, named x) → ∀ x, x ∈ result ↔ named x)
  ∧ (¬ (∃ x, named x) → result = defaultFields self).
Proof.
  intros Hextract Hinput Hselected tokens named.
  assert (∀ x, named x ↔ ∃ token fields, token ∈ tokens
                          ∧ token_fields self token = inr fields ∧ x ∈ fields) as Hnamed.
  { intros x. unfold named, token_fields. split.
    - intros (token & Hin & [(g & Hat & Hget & Hx) | (-> & Hx & Hget)]).
      + exists token, g. by rewrite Hat, Hget.
      + exists x, [x]. apply has_true in Hx. rewrite Hx. split; [done |].
        split; [| by left]. destruct (JsString.startsWith "@" x); [| done].
        by rewrite Hget.
    - intros (token & fields & Hin & Hf & Hx). exists token. split; [done |].
      assert ((if JsSet.has (availableFields self) token then [token] else []) = fields →
              token = x ∧ x ∈ availableFields self) as Hindividual.
      { destruct (JsSet.has (availableFields self) token) eqn:Hhas; intros <-.
        - apply list_elem_of_singleton in Hx as ->. by apply has_true in Hhas.
        - by apply elem_of_nil in Hx. }
      destruct (JsString.startsWith "@" token) eqn:Hat.
      + destruct (Groups.get (fieldGroups self) (JsString.slice1 token))
          as [| [| g |]] eqn:Hget; try done.
        * injection Hf as Hf. destruct (Hindividual Hf) as [-> Hav]. right.
          split_and!; done.
        * injection Hf as <-. left. by exists g.
      + injection Hf as Hf. destruct (Hindividual Hf) as [-> Hav]. right.
        split_and!; [done | done |]. by rewrite Hat. }
  unfold getSelectedFields in Hselected. rewrite Hextract in Hselected.
  destruct input as [| c input]; [done |].
  unfold parseFieldsInput in Hselected. fold tokens in Hselected.
  destruct (parse_loop self tokens JsSet.empty) as [| parsed] eqn:Hparse; [done |].
  apply parse_loop_inr in Hparse as (_ & _ & Hmem).
  assert (∀ x, x ∈ parsed ↔ named x) as Hparsed.
  { intros x. rewrite Hmem, Hnamed. unfold JsSet.empty. rewrite elem_of_nil. tauto. }
  case_decide as Hsize; injection Hselected as <-.
  - split; [| done]. intros [x Hx]. apply Hparsed in Hx.
    destruct parsed; [by apply elem_of_nil in Hx | done].
  - split; [done |]. intros Hnone. destruct parsed as [| x parsed]; [done |].
    destruct Hnone. exists x. apply Hparsed. by left.
Qed.

End selection_strings.

Lemma selection_membership_witness :
  FieldSelector.extractFieldsFromRequest users_selector
    (query_request "fields" "@basic, phone") = Some (FieldSelector.Str "@basic, phone")
  ∧ "@basic, phone" ≠ ""
  ∧ FieldSelector.getSelectedFields users_selector (query_request "fields" "@basic, phone")
    = inr ["id"; "name"; "phone"]
  ∧ let tokens :=
      map JsString.trim
        (JsString.split (FieldSelector.separator (FieldSelector.config users_selector))
           "@basic, phone") in
    let named (x : string) :=
      ∃ token, token ∈ tokens
        ∧ ((∃ groupFields,
              JsString.startsWith "@" token = true
              ∧ Groups.get (FieldSelector.fieldGroups users_selector)
                  (JsString.slice1 token)
                = inr (Groups.SetValue groupFields)
              ∧ x ∈ groupFields)
           ∨ (token = x ∧ x ∈ FieldSelector.availableFields users_selector
              ∧ (JsString.startsWith "@" x = true →
                 Groups.get (FieldSelector.fieldGroups users_selector) (JsString.slice1 x)
                 = inr Groups.Undefined))) in
    ((∃ x, named x) → ∀ x, x ∈ ["id"; "name"; "phone"] ↔ named x)
    ∧ (¬ (∃ x, named x) → ["id"; "name"; "phone"] = FieldSelector.defaultFields users_selector).
Proof.
  split; [vm_compute; reflexivity |]. split; [discriminate |].
  split; [vm_compute; reflexivity |].
  apply (selection_membership users_selector (query_request "fields" "@basic, phone")
           "@basic, phone" ["id"; "name"; "phone"]);
    [vm_compute; reflexivity | discriminate | vm_compute; reflexivity].
Defined.

(** ** Where the selection is read from *)

Section request_facts.
Import FieldSelector.

(** X9. A query value that is an array whose first element is a non-empty
    string selects what that string alone would select as a query value:
    the other elements have no influence, and neither have the headers. *)
Theorem first_element_like_single_value self query query' headers headers' c s rest :
  read query (queryParam (config self))
  = Some (Request.Param (Request.Multiple (String c s :: rest))) →
  read query' (queryParam (config self)) = Some (Request.Param (Request.Single (String c s))) →
  getSelectedFields self (Request.mk query headers)
  = getSelectedFields self (Request.mk query' headers').
Proof.
  intros Hq Hq'. unfold getSelectedFields, extractFieldsFromRequest.
  cbn [Request.query Request.headers]. by rewrite Hq, Hq'.
Qed.

Lemma first_element_like_single_value_witness :
  read (Some {[ "fields" := Request.Multiple ["id,phone"; "email"] ]})
    (queryParam (config users_selector))
  = Some (Request.Param (Request.Multiple (String "i" "d,phone" :: ["email"])))
  ∧ read (Some {[ "fields" := Request.Single "id,phone" ]})
      (queryParam (config users_selector))
    = Some (Request.Param (Request.Single (String "i" "d,phone")))
  ∧ getSelectedFields users_selector
      (Request.mk (Some {[ "fields" := Request.Multiple ["id,phone"; "email"] ]})
         (Some {[ "x-fields" := Request.Single "name" ]}))
    = getSelectedFields users_selector
        (Request.mk (Some {[ "fields" := Request.Single "id,phone" ]}) None).
Proof.
  split; [vm_compute; reflexivity |]. split; [vm_compute; reflexivity |].
  apply (first_element_like_single_value users_selector
           (Some {[ "fields" := Request.Multiple ["id,phone"; "email"] ]})
           (Some {[ "fields" := Request.Single "id,phone" ]})
           (Some {[ "x-fields" := Request.Single "name" ]}) None "i" "d,phone" ["email"]);
    vm_compute; reflexivity.
Defined.

(** X10. Whenever what is read under the query parameter is falsy
    ([undefined] or the empty string; a name the query mapping inherits
    from [Object.prototype] reads as truthy), a truthy value read under the
    header gives what the same value read under the query parameter would
    give: the same selection, or the same error. *)
Theorem header_selection_like_query_selection self query headers query' headers' value :
  truthy (read query (queryParam (config self))) = false →
  read headers (headerName (config self)) = value →
  read query' (queryParam (config self)) = value →
  truthy value = true →
  getSelectedFields self (Request.mk query headers)
  = getSelectedFields self (Request.mk query' headers').
Proof.
  intros Hq Hh Hq' Hvalue. unfold getSelectedFields, extractFieldsFromRequest.
  cbn [Request.query Request.headers]. by rewrite Hq, Hh, Hq', Hvalue.
Qed.

Lemma header_selection_like_query_selection_witness :
  truthy (read (Some {[ "fields" := Request.Single "" ]})
            (queryParam (config users_selector))) = false
  ∧ read (Some {[ "x-fields" := Request.Multiple ["@contact"] ]})
      (headerName (config users_selector))
    = Some (Request.Param (Request.Multiple ["@contact"]))
  ∧ read (Some {[ "fields" := Request.Multiple ["@contact"] ]})
      (queryParam (config users_selector))
    = Some (Request.Param (Request.Multiple ["@contact"]))
  ∧ truthy (Some (Request.Param (Request.Multiple ["@contact"]))) = true
  ∧ getSelectedFields users_selector
      (Request.mk (Some {[ "fields" := Request.Single "" ]})
         (Some {[ "x-fields" := Request.Multiple ["@contact"] ]}))
    = getSelectedFields users_selector
        (Request.mk (Some {[ "fields" := Request.Multiple ["@contact"] ]}) None).
Proof.
  split; [vm_compute; reflexivity |]. split; [vm_compute; reflexivity |].
  split; [vm_compute; reflexivity |]. split; [reflexivity |].
  apply (header_selection_like_query_selection users_selector
           (Some {[ "fields" := Request.Single "" ]})
           (Some {[ "x-fields" := Request.Multiple ["@contact"] ]})
           (Some {[ "fields" := Request.Multiple ["@contact"] ]}) None
           (Some (Request.Param (Request.Multiple ["@contact"]))));
    vm_compute; reflexivity.
Defined.

End request_facts.

(** ** More on [filterObject] *)

Section filterObject_more.
Context {V : Type}.
Implicit Types (obj acc : list (string * V)) (selectedFields : list string).




End filterObject_more.

(** X11. For an ordinary object (distinct keys in enumeration order) that
    has no own key [__proto__] when the field set holds [__proto__], so that
    no entry is written to the key [__proto__] of the result,
    [filterObject] returns the entries whose key is in the field set, with
    their values, in the order of the input. *)
Theorem filterObject_keeps_selected_entries {V : Type} self (obj : list (string * V))
    selectedFields :
  ordinary obj →
  ("__proto__" ∈ selectedFields → "__proto__" ∉ obj.*1) →
  FieldSelector.filterObject self obj selectedFields
  = filter (λ entry, entry.1 ∈ selectedFields) obj.
Proof.
  intros Hobj Hproto. rewrite filterObject_ordinary by done. clear Hobj.
  induction obj as [| [key value] obj IH]; [done |].
  rewrite !filter_cons, IH.
  - destruct (decide (retained selectedFields (key, value))) as [Hkept | Hkept],
      (decide ((key, value).1 ∈ selectedFields)) as [Hselected | Hselected]; try done.
    + destruct Hselected. apply Hkept.
    + destruct Hkept. split; [done |]. simpl. intros ->.
      apply (Hproto Hselected). rewrite fmap_cons. by left.
  - intros Hselected. specialize (Hproto Hselected). rewrite fmap_cons in Hproto.
    by apply not_elem_of_cons in Hproto as [_ ?].
Qed.

Lemma filterObject_keeps_selected_entries_witness :
  ordinary [("7", JNumber 7); ("10", JNumber 10); ("name", JString "John");
            ("id", JNumber 1)]
  ∧ ("__proto__" ∈ ["id"; "10"; "__proto__"; "phone"] →
     "__proto__" ∉ [("7", JNumber 7); ("10", JNumber 10); ("name", JString "John");
                    ("id", JNumber 1)].*1)
  ∧ FieldSelector.filterObject users_selector
      [("7", JNumber 7); ("10", JNumber 10); ("name", JString "John");
       ("id", JNumber 1)]
      ["id"; "10"; "__proto__"; "phone"]
    = filter (λ entry, entry.1 ∈ ["id"; "10"; "__proto__"; "phone"])
        [("7", JNumber 7); ("10", JNumber 10); ("name", JString "John");
         ("id", JNumber 1)].
Proof.
  split; [split; decide_now |]. split; [intros _; decide_now |].
  apply (filterObject_keeps_selected_entries users_selector);
    [split; decide_now | intros _; decide_now].
Defined.



(** X13. On an ordinary object that has no own key [__proto__] (so that
    no entry is written to the key [__proto__] of a result), filtering by
    one field set and then by another is filtering by the fields the two
    sets share, and the two filters commute. *)
Theorem filterObject_twice {V : Type} self (obj : list (string * V)) fields1 fields2 :
  ordinary obj →
  "__proto__" ∉ obj.*1 →
  FieldSelector.filterObject self (FieldSelector.filterObject self obj fields1) fields2
  = FieldSelector.filterObject self obj (filter (.∈ fields2) fields1)
  ∧ FieldSelector.filterObject self (FieldSelector.filterObject self obj fields1) fields2
    = FieldSelector.filterObject self (FieldSelector.filterObject self obj fields2) fields1.
Proof.
  intros Hobj _.
  assert (∀ fields, ordinary (FieldSelector.filterObject self obj fields)) as Hresult.
  { intros fields. destruct (filterObject_result_keys self obj fields) as (? & ? & _).
    by split. }
  rewrite !(filterObject_ordinary self (FieldSelector.filterObject self obj _)) by done.
  rewrite !(filterObject_ordinary self obj) by done.
  rewrite !list_filter_filter. split; apply list_filter_iff; intros [key value];
    unfold retained; simpl; rewrite ?list_elem_of_filter; tauto.
Qed.

Lemma filterObject_twice_witness :
  ordinary [("id", JNumber 1); ("name", JString "John"); ("phone", JString "123")]
  ∧ ("__proto__" ∉ [("id", JNumber 1); ("name", JString "John");
                    ("phone", JString "123")].*1)
  ∧ FieldSelector.filterObject users_selector
      (FieldSelector.filterObject users_selector
         [("id", JNumber 1); ("name", JString "John"); ("phone", JString "123")]
         ["phone"; "id"])
      ["id"; "name"]
    = FieldSelector.filterObject users_selector
        [("id", JNumber 1); ("name", JString "John"); ("phone", JString "123")]
        (filter (.∈ ["id"; "name"]) ["phone"; "id"])
  ∧ FieldSelector.filterObject users_selector
      (FieldSelector.filterObject users_selector
         [("id", JNumber 1); ("name", JString "John"); ("phone", JString "123")]
         ["phone"; "id"])
      ["id"; "name"]
    = FieldSelector.filterObject users_selector
        (FieldSelector.filterObject users_selector
           [("id", JNumber 1); ("name", JString "John"); ("phone", JString "123")]
           ["id"; "name"])
        ["phone"; "id"].
Proof.
  split; [split; decide_now |]. split; [decide_now |].
  apply (filterObject_twice users_selector); [split; decide_now | decide_now].
Defined.

(** X14. [filterObject] returns an ordinary object unchanged when the
    field set holds all its keys and none of them is [__proto__]. *)
Theorem filterObject_all_keys {V : Type} self (obj : list (string * V)) selectedFields :
  ordinary obj →
  "__proto__" ∉ obj.*1 →
  obj.*1 ⊆ selectedFields →
  FieldSelector.filterObject self obj selectedFields = obj.
Proof.
  intros Hobj Hproto Hkeys. rewrite filterObject_ordinary by done.
  clear Hobj. induction obj as [| [key value] obj IH]; [done |].
  rewrite fmap_cons in Hproto, Hkeys. apply not_elem_of_cons in Hproto as [Hkey Hproto].
  rewrite filter_cons, decide_True.
  - rewrite IH; [done | done |]. intros k Hk. apply Hkeys. by right.
  - split; simpl; [apply Hkeys; by left | done].
Qed.

Lemma filterObject_all_keys_witness :
  ordinary [("id", JNumber 1); ("name", JString "John")]
  ∧ ("__proto__" ∉ [("id", JNumber 1); ("name", JString "John")].*1)
  ∧ ([("id", JNumber 1); ("name", JString "John")].*1 ⊆ ["name"; "email"; "id"])
  ∧ FieldSelector.filterObject users_selector
      [("id", JNumber 1); ("name", JString "John")] ["name"; "email"; "id"]
    = [("id", JNumber 1); ("name", JString "John")].
Proof.
  split; [split; decide_now |]. split; [decide_now |]. split; [decide_now |].
  apply (filterObject_all_keys users_selector);
    [split; decide_now | decide_now | decide_now].
Defined.



(** ** Whitespace around the tokens *)

Section whitespace_facts.
Import JsString.

Lemma trimStart_blank ws s : blank ws → trimStart (ws +:+ s) = trimStart s.
Proof.
  unfold blank. induction ws as [| x ws IH]; [done |].
  cbn [list_ascii_of_string]. intros [Hx Hws]%Forall_cons.
  change (String x ws +:+ s) with (String x (ws +:+ s)). cbn [trimStart].
  rewrite Hx. by apply IH.
Qed.

Lemma trimEnd_blank_only ws : blank ws → trimEnd ws = "".
Proof.
  unfold blank. induction ws as [| x ws IH]; [done |].
  cbn [list_ascii_of_string]. intros [Hx Hws]%Forall_cons.
  cbn [trimEnd]. by rewrite IH, Hx.
Qed.

Lemma trimEnd_blank s ws : blank ws → trimEnd (s +:+ ws) = trimEnd s.
Proof.
  intros Hws. induction s as [| x s IH].
  - by apply trimEnd_blank_only.
  - change (String x s +:+ ws) with (String x (s +:+ ws)). cbn [trimEnd]. by rewrite IH.
Qed.

Lemma trim_blank_end s ws : blank ws → trim (s +:+ ws) = trim s.
Proof.
  intros Hws. unfold trim. induction s as [| x s IH].
  - change ("" +:+ ws) with ws. rewrite <- (append_empty_r ws), trimStart_blank by done.
    done.
  - change (String x s +:+ ws) with (String x (s +:+ ws)). cbn [trimStart].
    destruct (is_white_space x); [done |].
    change (String x (s +:+ ws)) with (String x s +:+ ws). by apply trimEnd_blank.
Qed.

(** [trim] ignores white space put around a string. *)
Lemma trim_padded ws s ws' : blank ws → blank ws' → trim (ws +:+ s +:+ ws') = trim s.
Proof.
  intros Hws Hws'. rewrite <- (trim_blank_end s ws') by done.
  unfold trim. by rewrite trimStart_blank.
Qed.

End whitespace_facts.

(** X16. With a separator of one code unit, white space put around the
    tokens of a selection string does not change what [parseFieldsInput]
    returns or raises. *)
Theorem selection_ignores_padding self c tokens tokens' :
  FieldSelector.separator (FieldSelector.config self) = String c "" →
  Forall2 padded tokens tokens' →
  Forall (λ token', c ∉ list_ascii_of_string token') tokens' →
  Forall (λ token, c ∉ list_ascii_of_string token) tokens →
  FieldSelector.parseFieldsInput self (JsString.join (String c "") tokens')
  = FieldSelector.parseFieldsInput self (JsString.join (String c "") tokens).
Proof.
  intros Hsep Hpad Hfree' Hfree. unfold FieldSelector.parseFieldsInput. rewrite Hsep.
  destruct tokens as [| token tokens].
  { by apply Forall2_nil_inv_l in Hpad as ->. }
  destruct tokens' as [| token' tokens']; [by apply Forall2_nil_inv_r in Hpad |].
  rewrite !split_join_char by done. f_equal.
  clear Hfree Hfree'. induction Hpad as [| t t' ts ts' (ws & ws' & Hws & Hws' & ->) _ IH];
    [done |].
  cbn [map]. by rewrite trim_padded, IH.
Qed.

Lemma selection_ignores_padding_witness :
  FieldSelector.separator (FieldSelector.config users_selector) = String "," ""
  ∧ Forall2 padded ["id"; "@contact"] [" id  "; "@contact "]
  ∧ Forall (λ token', ","%char ∉ list_ascii_of_string token') [" id  "; "@contact "]
  ∧ Forall (λ token, ","%char ∉ list_ascii_of_string token) ["id"; "@contact"]
  ∧ FieldSelector.parseFieldsInput users_selector
      (JsString.join (String "," "") [" id  "; "@contact "])
    = FieldSelector.parseFieldsInput users_selector
        (JsString.join (String "," "") ["id"; "@contact"]).
Proof.
  assert (Forall2 padded ["id"; "@contact"] [" id  "; "@contact "]) as Hpad.
  { repeat constructor.
    - exists " ", "  ". split; [decide_now |]. split; [decide_now | reflexivity].
    - exists "", " ". split; [decide_now |]. split; [decide_now | reflexivity]. }
  split; [reflexivity |]. split; [exact Hpad |]. split; [decide_now |].
  split; [decide_now |].
  apply (selection_ignores_padding users_selector ","%char
           ["id"; "@contact"] [" id  "; "@contact "]);
    [reflexivity | exact Hpad | decide_now | decide_now].
Defined.
